(** * kvs: a gob-encoding key-value facade over a bolt bucket

    A shallow embedding of [kvs.go] and of the parts of its two
    collaborators that the facade calls:

    - the storage engine (github.com/boltdb/bolt): [bolt_Open],
      [DB_Update], [DB_View], [DB_Close], [Tx_Bucket],
      [Tx_CreateBucketIfNotExists], [Bucket_Put], [Bucket_Cursor],
      [Cursor_Seek], [Cursor_Delete].  A bucket is the ascending sequence
      of its leaf elements (the B+tree flattened); a cursor is an index in
      that sequence.
    - the codec (encoding/gob): an interface [Gob], whose encoder can
      return bytes, return an error or panic, and whose bytes can depend
      on the order in which the runtime walks maps; and one small instance
      [GoValue] used to run the model on concrete inputs.

    Go's [error] results are [outcome]s: [OK] is the nil error, [Err e] a
    non-nil one, and [Panic] a run-time panic of the call. *)

From Stdlib Require Import List ZArith NArith Bool String Ascii Lia.
From Stdlib Require Import Strings.Byte.
Import ListNotations.

Local Open Scope Z_scope.

(* ------------------------------------------------------------------ *)
(** ** Go data: byte slices and strings *)

(** [[]byte]. *)
Definition bytes := list byte.

(** The conversion [[]byte(s)]. *)
Definition bytes_of_string (s : string) : bytes := list_byte_of_string s.

(** The conversion [string(b)]. *)
Definition string_of_bytes (b : bytes) : string := string_of_list_byte b.

(** [bytes.Compare]: lexicographic order on unsigned bytes. *)
Fixpoint bytes_Compare (a b : bytes) : comparison :=
  match a, b with
  | [], [] => Eq
  | [], _ :: _ => Lt
  | _ :: _, [] => Gt
  | x :: a', y :: b' =>
      match N.compare (Byte.to_N x) (Byte.to_N y) with
      | Eq => bytes_Compare a' b'
      | c => c
      end
  end.

(** [bytes.Equal]. *)
Definition bytes_Equal (a b : bytes) : bool :=
  match bytes_Compare a b with Eq => true | _ => false end.

(** [len] of a slice, as a Go [int]. *)
Definition len (b : bytes) : Z := Z.of_nat (List.length b).

(* ------------------------------------------------------------------ *)
(** ** Errors and call outcomes *)

Inductive error : Type :=
  (* kvs.go, lines 16-19 *)
  | ErrNotFound
  | ErrBadValue
  (* bolt/errors.go *)
  | ErrDatabaseNotOpen
  | ErrTimeout
  | ErrTxNotWritable
  | ErrBucketNameRequired
  | ErrKeyRequired
  | ErrKeyTooLarge
  | ErrValueTooLarge
  | ErrIncompatibleValue
  (* a failure reported by the operating system to the engine *)
  | ErrIO (msg : string)
  (* an error returned by the gob encoder or decoder *)
  | ErrGob (msg : string).

Inductive outcome : Type :=
  | OK
  | Err (e : error)
  | Panic.

(** The errors that come from the engine (bolt itself, or the operating
    system underneath it), as opposed to the facade's two sentinels and the
    codec's errors. *)
Definition engine_error (e : error) : bool :=
  match e with
  | ErrNotFound | ErrBadValue | ErrGob _ => false
  | _ => true
  end.

(* ------------------------------------------------------------------ *)
(** ** The engine: buckets *)

(** bolt/node.go [inode]: one element of a leaf. *)
Record inode : Type := mkInode {
  flags : N;        (* uint32 *)
  key : bytes;
  value : bytes
}.

(** bolt/page.go. *)
Definition bucketLeafFlag : N := 1.

(** bolt/bucket.go. *)
Definition MaxKeySize : Z := 32768.
Definition MaxValueSize : Z := 2 ^ 31 - 2.

Definition is_bucket (i : inode) : bool :=
  negb (N.land (flags i) bucketLeafFlag =? 0)%N.

(** The elements of one bucket, in key order. *)
Definition Bucket := list inode.

(** The top-level buckets of a database file, by name. *)
Definition Root := list (bytes * Bucket).

Fixpoint root_get (name : bytes) (r : Root) : option Bucket :=
  match r with
  | [] => None
  | (n, b) :: r' => if bytes_Equal n name then Some b else root_get name r'
  end.

Fixpoint root_set (name : bytes) (b : Bucket) (r : Root) : Root :=
  match r with
  | [] => [(name, b)]
  | (n, b0) :: r' =>
      if bytes_Equal n name then (n, b) :: r' else (n, b0) :: root_set name b r'
  end.

(** The index bolt's searches stop at: the smallest index whose key is not
    below [seek] ([sort.Search] with [bytes.Compare(key, seek) != -1]). *)
Fixpoint seek_index (seek : bytes) (l : Bucket) : nat :=
  match l with
  | [] => O
  | i :: l' =>
      match bytes_Compare (key i) seek with
      | Lt => S (seek_index seek l')
      | _ => O
      end
  end.

(** bolt/node.go [node.put(key, key, value, 0, 0)]: replace the element at
    the search index when its key is [k], insert there otherwise. *)
Definition node_put (k v : bytes) (l : Bucket) : Bucket :=
  let index := seek_index k l in
  let exact :=
    match nth_error l index with
    | Some i => bytes_Equal (key i) k
    | None => false
    end in
  firstn index l ++ mkInode 0 k v :: skipn (if exact then S index else index) l.

(** bolt/node.go [node.del(key)]: remove the element at the search index
    when its key is [k], do nothing otherwise. *)
Definition node_del (k : bytes) (l : Bucket) : Bucket :=
  let index := seek_index k l in
  match nth_error l index with
  | Some i =>
      if bytes_Equal (key i) k then firstn index l ++ skipn (S index) l else l
  | None => l
  end.

(* ------------------------------------------------------------------ *)
(** ** The engine: transactions, bucket handles and cursors *)

(** bolt/tx.go [Tx]: the transaction's own view of the buckets. *)
Record Tx : Type := mkTx {
  writable : bool;
  tx_root : Root
}.

(** A [*Bucket] obtained from a transaction: the bucket is reached through
    the transaction by its name. *)
Record BucketRef : Type := mkBucketRef { b_name : bytes }.

(** bolt/cursor.go [Cursor]: a bucket and a position in it. *)
Record Cursor : Type := mkCursor {
  c_bucket : BucketRef;
  c_index : nat
}.

Definition bucket_of (tx : Tx) (b : BucketRef) : Bucket :=
  match root_get (b_name b) (tx_root tx) with
  | Some l => l
  | None => []
  end.

Definition set_bucket (tx : Tx) (b : BucketRef) (l : Bucket) : Tx :=
  mkTx (writable tx) (root_set (b_name b) l (tx_root tx)).

(** [tx.Bucket(name)]: nil when there is no such bucket. *)
Definition Tx_Bucket (tx : Tx) (name : bytes) : option BucketRef :=
  match root_get name (tx_root tx) with
  | Some _ => Some (mkBucketRef name)
  | None => None
  end.

(** [tx.CreateBucketIfNotExists(name)]. *)
Definition Tx_CreateBucketIfNotExists (tx : Tx) (name : bytes)
  : (option BucketRef * outcome) * Tx :=
  if negb (writable tx) then ((None, Err ErrTxNotWritable), tx)
  else if len name =? 0 then ((None, Err ErrBucketNameRequired), tx)
  else
    match root_get name (tx_root tx) with
    | Some _ => ((Some (mkBucketRef name), OK), tx)
    | None =>
        ((Some (mkBucketRef name), OK),
         mkTx (writable tx) (root_set name [] (tx_root tx)))
    end.

(** [b.Put(key, value)]. *)
Definition Bucket_Put (tx : Tx) (b : BucketRef) (k v : bytes) : outcome * Tx :=
  if negb (writable tx) then (Err ErrTxNotWritable, tx)
  else if len k =? 0 then (Err ErrKeyRequired, tx)
  else if len k >? MaxKeySize then (Err ErrKeyTooLarge, tx)
  else if len v >? MaxValueSize then (Err ErrValueTooLarge, tx)
  else
    let l := bucket_of tx b in
    match nth_error l (seek_index k l) with
    | Some i =>
        if bytes_Equal k (key i) && is_bucket i
        then (Err ErrIncompatibleValue, tx)
        else (OK, set_bucket tx b (node_put k v l))
    | None => (OK, set_bucket tx b (node_put k v l))
    end.

(** [b.Cursor()]. *)
Definition Bucket_Cursor (b : BucketRef) : Cursor := mkCursor b O.

(** [c.Seek(seek)]: moves the cursor to the first key not below [seek] and
    returns that element; [(nil, nil)] past the last key, a nil value for a
    nested bucket. *)
Definition Cursor_Seek (tx : Tx) (c : Cursor) (seek : bytes)
  : Cursor * (option bytes * option bytes) :=
  let l := bucket_of tx (c_bucket c) in
  let c' := mkCursor (c_bucket c) (seek_index seek l) in
  match nth_error l (c_index c') with
  | None => (c', (None, None))
  | Some i =>
      if is_bucket i then (c', (Some (key i), None))
      else (c', (Some (key i), Some (value i)))
  end.

(** [c.Delete()]: removes the element under the cursor. *)
Definition Cursor_Delete (tx : Tx) (c : Cursor) : outcome * Tx :=
  if negb (writable tx) then (Err ErrTxNotWritable, tx)
  else
    let l := bucket_of tx (c_bucket c) in
    match nth_error l (c_index c) with
    | None => (Panic, tx)
    | Some i =>
        if is_bucket i then (Err ErrIncompatibleValue, tx)
        else (OK, set_bucket tx (c_bucket c) (node_del (key i) l))
    end.

(* ------------------------------------------------------------------ *)
(** ** The engine: database handles *)

(** What a [*bolt.DB] points to.  [commits] lists what the operating
    system will answer to the coming commits, [None] for a write that goes
    through and [Some msg] for one that fails with that message (an empty
    list: every later commit goes through); [begun] records, newest first,
    the [writable] flag of every transaction begun through the handle;
    [closing] is what the operating system will answer when the memory map
    and the file are released, [Some msg] for a failure. *)
Record DB : Type := mkDB {
  opened : bool;
  root : Root;
  commits : list (option string);
  begun : list bool;
  closing : option string
}.

Definition DB_begin (w : bool) (d : DB) : DB :=
  mkDB (opened d) (root d) (commits d) (w :: begun d) (closing d).

(** [tx.Commit()]: the transaction's buckets become the database's, unless
    writing them out fails, which leaves the database as it was. *)
Definition Tx_Commit (d : DB) (tx : Tx) : outcome * DB :=
  match commits d with
  | Some msg :: rest =>
      (Err (ErrIO msg), mkDB (opened d) (root d) rest (begun d) (closing d))
  | None :: rest =>
      (OK, mkDB (opened d) (tx_root tx) rest (begun d) (closing d))
  | [] => (OK, mkDB (opened d) (tx_root tx) [] (begun d) (closing d))
  end.

(** [db.Update(fn)]: [fn] runs in a read-write transaction, which is
    committed when [fn] returns nil and rolled back otherwise (also when
    [fn] panics, by the deferred rollback). *)
Definition DB_Update (d : DB) (fn : Tx -> outcome * Tx) : outcome * DB :=
  if negb (opened d) then (Err ErrDatabaseNotOpen, d)
  else
    let d1 := DB_begin true d in
    let (r, tx) := fn (mkTx true (root d1)) in
    match r with
    | OK => Tx_Commit d1 tx
    | _ => (r, d1)
    end.

(** [db.View(fn)]: [fn] runs in a read-only transaction, which is always
    rolled back.  [A] is what [fn] leaves in the variables it captures,
    [a0] what they hold before. *)
Definition DB_View {A : Type} (d : DB) (fn : Tx -> outcome * A) (a0 : A)
  : (outcome * A) * DB :=
  if negb (opened d) then ((Err ErrDatabaseNotOpen, a0), d)
  else
    let d1 := DB_begin false d in
    (fn (mkTx false (root d1)), d1).

(** [db.Close()]: nil on a handle that is closed already; otherwise the
    handle is marked closed first, and the error of releasing the memory
    map or of closing the file, if any, is returned. *)
Definition DB_Close (d : DB) : outcome * DB :=
  if negb (opened d) then (OK, d)
  else
    let d' := mkDB false (root d) (commits d) (begun d) (closing d) in
    match closing d with
    | Some msg => (Err (ErrIO msg), d')
    | None => (OK, d')
    end.

(* ------------------------------------------------------------------ *)
(** ** The engine: opening a database file *)

(** [time.Duration] counts nanoseconds. *)
Definition Millisecond : Z := 1000000.

(** What is at a path when [bolt.Open] looks. *)
Inductive FileImage : Type :=
  | NoDirectory                 (* a leading directory is missing *)
  | NoFile                      (* nothing there: an empty database is made *)
  | BoltFile (r : Root)         (* a database holding these buckets *)
  | BadFile (e : error).        (* a file whose meta pages are rejected with [e] *)

(** A path as the process finds it: its content, the number [busy] of
    coming lock attempts that will still find another process holding the
    file lock (0: the lock is free), the results of coming commits, and
    the result of releasing the file when it is closed. *)
Record FileState : Type := mkFileState {
  image : FileImage;
  busy : nat;
  file_commits : list (option string);
  file_closing : option string
}.

(** The operating system: the files, and by how much every [time.Sleep]
    oversleeps. *)
Record OS : Type := mkOS {
  file_at : string -> FileState;
  oversleep : Z
}.

(** [bolt.Options]. *)
Record Options : Type := mkOptions { Timeout : Z }.

(** bolt/bolt_unix.go [flock]: try the lock, sleep 50ms, and give up with
    [ErrTimeout] once a positive [timeout] has been exceeded, which is only
    looked at from the second round on.  [elapsed] is [time.Since(t)]. *)
Fixpoint flock_from (timeout step : Z) (busy : nat) (first : bool) (elapsed : Z)
  : outcome :=
  if negb first && (timeout >? 0) && (elapsed >? timeout) then Err ErrTimeout
  else
    match busy with
    | O => OK
    | S busy' => flock_from timeout step busy' false (elapsed + step)
    end.

Definition flock (os : OS) (f : FileState) (timeout : Z) : outcome :=
  flock_from timeout (50 * Millisecond + Z.max 0 (oversleep os)) (busy f) true 0.

(** [bolt.Open(path, mode, options)]. *)
Definition bolt_Open (os : OS) (path : string) (mode : Z) (options : Options)
  : option DB * outcome :=
  let f := file_at os path in
  match image f with
  | NoDirectory => (None, Err (ErrIO "no such file or directory"))
  | img =>
      match flock os f (Timeout options) with
      | OK =>
          match img with
          | BoltFile r =>
              (Some (mkDB true r (file_commits f) [] (file_closing f)), OK)
          | BadFile e => (None, Err e)
          | _ =>
              (Some (mkDB true [] (file_commits f) [] (file_closing f)), OK)
          end
      | r => (None, r)
      end
  end.

(* ------------------------------------------------------------------ *)
(** ** The codec *)

(** What [gob.NewEncoder(&buf).Encode(v)] does on a fresh buffer: it
    returns nil and the buffer holds bytes, or it returns an error, or it
    panics (as gob does on a nil pointer of some type, which is not the
    nil interface). *)
Inductive encoding : Type :=
  | Encoded (buf : bytes)
  | EncodeError (msg : string)
  | EncodePanic.

(** encoding/gob as the facade uses it.  [gobEncode order v] is the
    encoding of [v] in a call where the runtime walks maps in the order
    [order]: gob writes the entries of a map as it meets them, so one
    value can have several encodings.  [gobDecode b dst] is
    [gob.NewDecoder(bytes.NewReader(b)).Decode(&dst)], giving what the
    destination holds afterwards and the error.  An error of the codec is
    given by its message. *)
Class Gob (V : Type) : Type := {
  gobEncode : nat -> V -> encoding;
  gobDecode : bytes -> V -> V * option string
}.

(** The codec reports an error as its message. *)
Definition outcome_of (e : option string) : outcome :=
  match e with
  | None => OK
  | Some msg => Err (ErrGob msg)
  end.

(* ------------------------------------------------------------------ *)
(** ** kvs.go *)

(** Line 19. *)
Definition bucketName : bytes := bytes_of_string "kvs".

(** Lines 12-14: the struct, with what its [db] pointer points to. *)
Record KVStore : Type := mkKVStore { db : DB }.

(** Lines 25-42. *)
Definition Open (os : OS) (path : string) : option KVStore * outcome :=
  let opts := mkOptions (50 * Millisecond) in
  match bolt_Open os path 416 (* 0640 *) opts with
  | (Some d, OK) =>
      let (err, d') :=
        DB_Update d (fun tx =>
          let '((_, err), tx') := Tx_CreateBucketIfNotExists tx bucketName in
          (err, tx')) in
      match err with
      | OK => (Some (mkKVStore d'), OK)
      | _ => (None, err)
      end
  | (_, err) => (None, err)
  end.

(** Lines 89-91. *)
Definition Close (kvs : KVStore) : outcome * KVStore :=
  let (r, d) := DB_Close (db kvs) in (r, mkKVStore d).

(** The test of lines 65 and 81 on the key a seek returned:
    [k == nil || string(k) != key]. *)
Definition other_key (k : option bytes) (key : string) : bool :=
  match k with
  | None => true
  | Some k => negb (string_of_bytes k =? key)%string
  end.

Section Facade.

Context {V : Type} {codec : Gob V}.

(** Lines 46-57.  A nil [value] is [None]; a nil pointer of some type is
    a [Some v] like any other value.  [order] is the order in which the
    runtime walks maps during the call.  Were [tx.Bucket] to return nil,
    the method call on it would panic; so in [Get] and [Delete]. *)
Definition Put (order : nat) (kvs : KVStore) (key : string) (value : option V)
  : outcome * KVStore :=
  match value with
  | None => (Err ErrBadValue, kvs)
  | Some v =>
      match gobEncode order v with
      | EncodePanic => (Panic, kvs)
      | EncodeError msg => (Err (ErrGob msg), kvs)
      | Encoded buf =>
          let (r, d) :=
            DB_Update (db kvs) (fun tx =>
              match Tx_Bucket tx bucketName with
              | None => (Panic, tx)
              | Some b => Bucket_Put tx b (bytes_of_string key) buf
              end) in
          (r, mkKVStore d)
      end
  end.

(** Lines 62-74.  A nil destination is [None]; the result carries what
    the destination holds when the call returns. *)
Definition Get (kvs : KVStore) (key : string) (value : option V)
  : (outcome * option V) * KVStore :=
  let (r, d) :=
    DB_View (db kvs) (fun tx =>
      match Tx_Bucket tx bucketName with
      | None => (Panic, value)
      | Some b =>
          let cursor := Bucket_Cursor b in
          let '(cursor, (k, v)) := Cursor_Seek tx cursor (bytes_of_string key) in
          if other_key k key then (Err ErrNotFound, value)
          else
            match value with
            | None => (OK, value)
            | Some dst =>
                let (dst', err) :=
                  gobDecode (match v with Some v => v | None => [] end) dst in
                (outcome_of err, Some dst')
            end
      end) value in
  (r, mkKVStore d).

(** Lines 78-87. *)
Definition Delete (kvs : KVStore) (key : string) : outcome * KVStore :=
  let (r, d) :=
    DB_Update (db kvs) (fun tx =>
      match Tx_Bucket tx bucketName with
      | None => (Panic, tx)
      | Some b =>
          let cursor := Bucket_Cursor b in
          let '(cursor, (k, _)) := Cursor_Seek tx cursor (bytes_of_string key) in
          if other_key k key then (Err ErrNotFound, tx)
          else Cursor_Delete tx cursor
      end) in
  (r, mkKVStore d).

End Facade.

(* ------------------------------------------------------------------ *)
(** ** A codec instance: gob on strings, ints, channels and nil pointers

    The wire format of encoding/gob for a top-level [string] or [int]
    (message length, type id, a zero byte, the value), its refusal of a
    channel and its panic on a nil pointer.  None of these values holds a
    map, so the order of the call plays no part.  It is what the examples
    below are run with. *)

Module GobWire.

Inductive GoValue : Type :=
  | GoString (s : string)
  | GoInt (i : Z)
  | GoChan
  | GoNilPointer.

Definition byte_of (x : N) : byte :=
  match Byte.of_N (x mod 256) with
  | Some b => b
  | None => x00
  end.

(** [n] bytes of [x], most significant first. *)
Fixpoint big_endian (n : nat) (x : N) : bytes :=
  match n with
  | O => []
  | S n' => byte_of (x / 256 ^ N.of_nat n') :: big_endian n' x
  end.

(** encode.go [encodeUint]: one byte up to 127, otherwise the negated
    byte count and the bytes. *)
Definition encodeUint (x : N) : bytes :=
  if (x <=? 127)%N then [byte_of x]
  else
    let n := N.to_nat (N.log2 x / 8 + 1) in
    byte_of (256 - N.of_nat n) :: big_endian n x.

(** encode.go [encodeInt]: the sign goes to bit 0. *)
Definition encodeInt (i : Z) : bytes :=
  encodeUint (Z.to_N (if i <? 0 then 2 * (- i - 1) + 1 else 2 * i)).

Fixpoint from_big_endian (acc : N) (b : bytes) : N :=
  match b with
  | [] => acc
  | x :: b' => from_big_endian (acc * 256 + Byte.to_N x) b'
  end.

Definition decodeUint (b : bytes) : option (N * bytes) :=
  match b with
  | [] => None
  | x :: rest =>
      if (Byte.to_N x <=? 127)%N then Some (Byte.to_N x, rest)
      else
        let n := N.to_nat (256 - Byte.to_N x) in
        if (8 <? n)%nat || (List.length rest <? n)%nat then None
        else Some (from_big_endian 0 (firstn n rest), skipn n rest)
  end.

Definition decodeInt (b : bytes) : option (Z * bytes) :=
  match decodeUint b with
  | None => None
  | Some (u, rest) =>
      Some (if N.odd u then - Z.of_N (u / 2) - 1 else Z.of_N (u / 2), rest)
  end.

Definition message (typeId : Z) (body : bytes) : bytes :=
  let payload := encodeInt typeId ++ x00 :: body in
  encodeUint (N.of_nat (List.length payload)) ++ payload.

Definition encode (order : nat) (v : GoValue) : encoding :=
  match v with
  | GoString s =>
      let b := bytes_of_string s in
      Encoded (message 6 (encodeUint (N.of_nat (List.length b)) ++ b))
  | GoInt i => Encoded (message 2 (encodeInt i))
  | GoChan => EncodeError "gob NewTypeObject can't handle type: chan int"
  | GoNilPointer => EncodePanic
  end.

(** The value carried by one message. *)
Definition parse (b : bytes) : string + GoValue :=
  match decodeUint b with
  | None => inl "EOF"%string
  | Some (n, payload) =>
      if negb (N.of_nat (List.length payload) =? n)%N
      then inl "unexpected EOF"%string
      else
        match decodeInt payload with
        | Some (6, x00 :: body) =>
            match decodeUint body with
            | Some (l, s) =>
                if (N.of_nat (List.length s) =? l)%N
                then inr (GoString (string_of_bytes s))
                else inl "gob: bad string length"%string
            | None => inl "unexpected EOF"%string
            end
        | Some (2, x00 :: body) =>
            match decodeInt body with
            | Some (i, []) => inr (GoInt i)
            | _ => inl "gob: bad int"%string
            end
        | _ => inl "gob: unknown type id or corrupted data"%string
        end
  end.

(** Decoding into a destination of another Go type is an error and
    leaves the destination as it was. *)
Definition decode (b : bytes) (dst : GoValue) : GoValue * option string :=
  match parse b with
  | inl e => (dst, Some e)
  | inr v =>
      match v, dst with
      | GoString _, GoString _ => (v, None)
      | GoInt _, GoInt _ => (v, None)
      | _, _ => (dst, Some "gob: decoding into wrong type"%string)
      end
  end.

#[export] Instance gob : Gob GoValue :=
  {| gobEncode := encode; gobDecode := decode |}.

End GobWire.


(* ------------------------------------------------------------------ *)
(** ** What the properties are stated with *)

(** The open operation as the specification words it, with the lock
    timeout passed by the caller: [Open(path, lockTimeout)].  It is the
    source's [Open] with the caller's value in place of the constant. *)
Definition Open_with_timeout (os : OS) (path : string) (lockTimeout : Z)
  : option KVStore * outcome :=
  let opts := mkOptions lockTimeout in
  match bolt_Open os path 416 opts with
  | (Some d, OK) =>
      let (err, d') :=
        DB_Update d (fun tx =>
          let '((_, err), tx') := Tx_CreateBucketIfNotExists tx bucketName in
          (err, tx')) in
      match err with
      | OK => (Some (mkKVStore d'), OK)
      | _ => (None, err)
      end
  | (_, err) => (None, err)
  end.

(** The element a search stops at. *)
Definition seek_elem (k : bytes) (l : Bucket) : option inode :=
  nth_error l (seek_index k l).

(** Another process holds the file lock at every attempt that fits in a
    window of 50ms: at the first two, or at the first when sleeps take any
    longer than asked. *)
Definition held_past_50ms (os : OS) (f : FileState) : bool :=
  (2 <=? busy f)%nat || ((1 <=? busy f)%nat && (0 <? oversleep os)).

(** An exact-match lookup, as the specification would have it: the element
    of the container whose key is [k], wherever it stands. *)
Definition lookup (k : bytes) (l : Bucket) : option inode :=
  find (fun i => bytes_Equal (key i) k) l.

(** The number of elements stored under [k]. *)
Definition count_key (k : bytes) (l : Bucket) : nat :=
  List.length (filter (fun i => bytes_Equal (key i) k) l).

(** The engine's invariant on a bucket: keys strictly ascending, all of
    them above [lo].  With [lo] empty this also says no key is empty. *)
Fixpoint keys_above (lo : bytes) (l : Bucket) : bool :=
  match l with
  | [] => true
  | i :: l' =>
      match bytes_Compare lo (key i) with
      | Lt => keys_above (key i) l'
      | _ => false
      end
  end.

(** The facade's container in a store. *)
Definition has_bucket (kvs : KVStore) : bool :=
  match root_get bucketName (root (db kvs)) with
  | Some _ => true
  | None => false
  end.

Definition entries (kvs : KVStore) : Bucket :=
  match root_get bucketName (root (db kvs)) with
  | Some l => l
  | None => []
  end.

(** A store whose container exists and satisfies the engine's invariant. *)
Definition wf (kvs : KVStore) : bool :=
  match root_get bucketName (root (db kvs)) with
  | Some l => keys_above [] l
  | None => false
  end.

(** A file the engine can have written: if it holds the container, the
    container satisfies the engine's invariant. *)
Definition image_ok (img : FileImage) : bool :=
  match img with
  | BoltFile r =>
      match root_get bucketName r with
      | Some l => keys_above [] l
      | None => true
      end
  | _ => true
  end.

Section History.

Context {V : Type} {codec : Gob V}.

(** The codec returns [v] when it decodes into [dst] any of the encodings
    it has for [v]. *)
Definition round_trips (v dst : V) : Prop :=
  forall order buf,
    gobEncode order v = Encoded buf -> gobDecode buf dst = (v, None).

(** The calls of the facade on an opened store. *)
Inductive Op : Type :=
  | OpPut (order : nat) (key : string) (value : option V)
  | OpGet (key : string) (value : option V)
  | OpDelete (key : string)
  | OpClose.

Definition step (kvs : KVStore) (o : Op) : outcome * KVStore :=
  match o with
  | OpPut n k v => Put n kvs k v
  | OpGet k dst => (fst (fst (Get kvs k dst)), snd (Get kvs k dst))
  | OpDelete k => Delete kvs k
  | OpClose => Close kvs
  end.

(** Runs the calls in order; gives each call with its outcome, and the
    store at the end. *)
Fixpoint run (kvs : KVStore) (ops : list Op) : list (Op * outcome) * KVStore :=
  match ops with
  | [] => ([], kvs)
  | o :: ops' =>
      let (r, kvs1) := step kvs o in
      let (h, kvs2) := run kvs1 ops' in
      ((o, r) :: h, kvs2)
  end.

Inductive mutation : Type := Stored | Removed.

(** What a call did to the entry of [k], if anything. *)
Definition mutation_of (k : string) (e : Op * outcome) : option mutation :=
  match e with
  | (OpPut _ k' _, OK) => if (k' =? k)%string then Some Stored else None
  | (OpDelete k', OK) => if (k' =? k)%string then Some Removed else None
  | _ => None
  end.

(** The last mutation of [k] in a history (oldest call first). *)
Fixpoint last_mutation (k : string) (h : list (Op * outcome)) : option mutation :=
  match h with
  | [] => None
  | e :: h' =>
      match last_mutation k h' with
      | Some m => Some m
      | None => mutation_of k e
      end
  end.

(** The stores a process can hold: opened on a file the engine can have
    written, then used through the facade. *)
Inductive reachable : KVStore -> Prop :=
  | reachable_Open : forall os path kvs,
      image_ok (image (file_at os path)) = true ->
      Open os path = (Some kvs, OK) ->
      reachable kvs
  | reachable_step : forall kvs o,
      reachable kvs ->
      reachable (snd (step kvs o)).

End History.

Section Values.

Context {V : Type} {codec : Gob V}.

(** A plain element whose value is an encoding of some value. *)
Definition encoded (i : inode) : Prop :=
  flags i = 0%N /\
  exists order (v : V), gobEncode order v = Encoded (value i).

(** What a call makes of the value last put under [k], kept with the order
    of the call that put it: a successful [Put] of [k] sets it, a
    successful [Delete] of [k] clears it. *)
Definition put_of (k : string) (e : Op (V := V) * outcome)
  (before : option (nat * V)) : option (nat * V) :=
  match e with
  | (OpPut n k' (Some v), OK) =>
      if (k' =? k)%string then Some (n, v) else before
  | (OpDelete k', OK) => if (k' =? k)%string then None else before
  | _ => before
  end.

(** The value last put under [k] and not deleted since, along a history
    (oldest call first). *)
Definition last_put (k : string) (h : list (Op (V := V) * outcome))
  : option (nat * V) :=
  fold_left (fun acc e => put_of k e acc) h None.

End Values.

(* ------------------------------------------------------------------ *)
(** ** Concrete inputs *)

Module Examples.

Import GobWire.

(** No file yet, nobody holds the lock, sleeps take 1us too long. *)
Definition os_fresh : OS :=
  mkOS (fun _ => mkFileState NoFile 0 [] None) 1000.

(** Another process holds the lock at the first attempt and has released
    it by the second. *)
Definition os_locked : OS :=
  mkOS (fun _ => mkFileState NoFile 1 [] None) 1000.

(** Another process holds the lock throughout. *)
Definition os_held : OS :=
  mkOS (fun _ => mkFileState NoFile 2 [] None) 0.

(** The store [Open] returns for a new file. *)
Definition store0 : KVStore :=
  mkKVStore (mkDB true [(bucketName, [])] [] [true] None).

(** A store with two entries, the second of which gob cannot decode. *)
Definition store_ab : KVStore :=
  mkKVStore
    (mkDB true
       [(bucketName,
         [mkInode 0 (bytes_of_string "a")
            [x08; x0c; x00; x05; x68; x65; x6c; x6c; x6f];
          mkInode 0 (bytes_of_string "b") [xff]])]
       [] [] None).

(** [store0] after ["a"] has been put. *)
Definition store_a : KVStore :=
  snd (Put 0 store0 "a" (Some (GoString "hello"))).

(** A store whose next commit fails, and whose file fails to close. *)
Definition store_full : KVStore :=
  mkKVStore
    (mkDB true [(bucketName, [])] [Some "no space left on device"%string] []
       (Some "input/output error"%string)).

End Examples.

Import GobWire Examples.

(* ------------------------------------------------------------------ *)
(** ** Byte slices: order and conversions *)

Lemma to_N_inj : forall x y : byte, Byte.to_N x = Byte.to_N y -> x = y.
Proof.
  intros x y H.
  assert (E : Some x = Some y)
    by (rewrite <- (Byte.of_to_N x), <- (Byte.of_to_N y), H; reflexivity).
  now inversion E.
Qed.

Lemma bytes_Compare_refl : forall a, bytes_Compare a a = Eq.
Proof.
  induction a as [|x a IH]; simpl; [reflexivity|].
  now rewrite N.compare_refl.
Qed.

Lemma bytes_Compare_eq : forall a b, bytes_Compare a b = Eq -> a = b.
Proof.
  induction a as [|x a IH]; intros [|y b] H; simpl in H;
    try reflexivity; try discriminate.
  destruct (N.compare_spec (Byte.to_N x) (Byte.to_N y)) as [E|L|G];
    try discriminate.
  apply to_N_inj in E. subst y. f_equal. now apply IH.
Qed.

Lemma bytes_Compare_antisym :
  forall a b, bytes_Compare b a = CompOpp (bytes_Compare a b).
Proof.
  induction a as [|x a IH]; intros [|y b]; simpl; try reflexivity.
  rewrite (N.compare_antisym (Byte.to_N x) (Byte.to_N y)).
  destruct (Byte.to_N x ?= Byte.to_N y)%N; simpl; auto.
Qed.

Lemma bytes_Compare_lt_trans :
  forall a b c,
    bytes_Compare a b = Lt -> bytes_Compare b c = Lt -> bytes_Compare a c = Lt.
Proof.
  induction a as [|x a IH]; intros [|y b] [|z c] H1 H2; simpl in *;
    try reflexivity; try discriminate.
  destruct (N.compare_spec (Byte.to_N x) (Byte.to_N y)) as [E1|L1|G1];
    destruct (N.compare_spec (Byte.to_N y) (Byte.to_N z)) as [E2|L2|G2];
    try discriminate.
  - rewrite E1, E2, N.compare_refl. eauto.
  - rewrite E1. now apply N.compare_lt_iff in L2 as ->.
  - rewrite <- E2. now apply N.compare_lt_iff in L1 as ->.
  - assert (L : (Byte.to_N x < Byte.to_N z)%N) by lia.
    now apply N.compare_lt_iff in L as ->.
Qed.

Lemma bytes_Compare_gt_lt :
  forall a b, bytes_Compare a b = Gt -> bytes_Compare b a = Lt.
Proof. intros a b H. now rewrite bytes_Compare_antisym, H. Qed.

Lemma bytes_Equal_refl : forall a, bytes_Equal a a = true.
Proof. intros a. unfold bytes_Equal. now rewrite bytes_Compare_refl. Qed.

Lemma bytes_Equal_eq : forall a b, bytes_Equal a b = true -> a = b.
Proof.
  intros a b H. unfold bytes_Equal in H. apply bytes_Compare_eq.
  now destruct (bytes_Compare a b).
Qed.

Lemma bytes_Equal_neq : forall a b, a <> b -> bytes_Equal a b = false.
Proof.
  intros a b H. destruct (bytes_Equal a b) eqn:E; [|reflexivity].
  now apply bytes_Equal_eq in E.
Qed.

Lemma bytes_Equal_sym : forall a b, bytes_Equal a b = bytes_Equal b a.
Proof.
  intros a b. unfold bytes_Equal. rewrite (bytes_Compare_antisym a b).
  now destruct (bytes_Compare a b).
Qed.

Lemma bytes_Compare_nil_lt :
  forall a, bytes_Compare [] a = Lt -> a <> [].
Proof. intros [|x a] H; [discriminate|congruence]. Qed.

Lemma string_of_bytes_of_string :
  forall s, string_of_bytes (bytes_of_string s) = s.
Proof. intros s. apply string_of_list_byte_of_string. Qed.

Lemma bytes_of_string_inj :
  forall s t, bytes_of_string s = bytes_of_string t -> s = t.
Proof.
  intros s t H.
  rewrite <- (string_of_bytes_of_string s), <- (string_of_bytes_of_string t).
  now rewrite H.
Qed.

(** The test of lines 65 and 81 lets exactly the sought key through. *)
Lemma other_key_false :
  forall k key, other_key k key = false <-> k = Some (bytes_of_string key).
Proof.
  intros [k|] key; simpl; split; intros H; try discriminate.
  - apply negb_false_iff, String.eqb_eq in H. subst key. f_equal.
    symmetry. apply list_byte_of_string_of_list_byte.
  - inversion H; subst. rewrite string_of_bytes_of_string.
    now rewrite String.eqb_refl.
Qed.

Lemma len_zero : forall b, (len b =? 0) = true <-> b = [].
Proof.
  intros [|x b]; unfold len; simpl; split; intros H; try reflexivity;
    try discriminate.
Qed.

(* ------------------------------------------------------------------ *)
(** ** Buckets: searching, inserting, removing *)

Lemma seek_elem_cons :
  forall k i l,
    seek_elem k (i :: l) =
    match bytes_Compare (key i) k with
    | Lt => seek_elem k l
    | _ => Some i
    end.
Proof.
  intros k i l. unfold seek_elem. simpl.
  destruct (bytes_Compare (key i) k); reflexivity.
Qed.

Lemma node_put_cons :
  forall k v i l,
    node_put k v (i :: l) =
    match bytes_Compare (key i) k with
    | Lt => i :: node_put k v l
    | Eq => mkInode 0 k v :: l
    | Gt => mkInode 0 k v :: i :: l
    end.
Proof.
  intros k v i l. unfold node_put, bytes_Equal. simpl.
  destruct (bytes_Compare (key i) k) eqn:E; simpl; try rewrite E;
    try reflexivity.
  destruct (nth_error l (seek_index k l)) as [j|]; [|reflexivity].
  destruct (bytes_Compare (key j) k); reflexivity.
Qed.

Lemma node_del_cons :
  forall k i l,
    node_del k (i :: l) =
    match bytes_Compare (key i) k with
    | Lt => i :: node_del k l
    | Eq => l
    | Gt => i :: l
    end.
Proof.
  intros k i l. unfold node_del, bytes_Equal. simpl.
  destruct (bytes_Compare (key i) k) eqn:E; simpl; try rewrite E; try reflexivity.
  destruct (nth_error l (seek_index k l)) as [j|]; [|reflexivity].
  destruct (bytes_Compare (key j) k); reflexivity.
Qed.

Lemma lookup_cons :
  forall k i l,
    lookup k (i :: l) = if bytes_Equal (key i) k then Some i else lookup k l.
Proof. reflexivity. Qed.

(** What was just put is what a search for its key stops at, in any
    sequence. *)
Lemma seek_elem_node_put :
  forall k v l, seek_elem k (node_put k v l) = Some (mkInode 0 k v).
Proof.
  intros k v l. induction l as [|i l IH].
  - unfold seek_elem. simpl. now rewrite bytes_Compare_refl.
  - rewrite node_put_cons.
    destruct (bytes_Compare (key i) k) eqn:E; rewrite seek_elem_cons; simpl.
    + now rewrite bytes_Compare_refl.
    + now rewrite E.
    + now rewrite bytes_Compare_refl.
Qed.

Lemma keys_above_weaken :
  forall l lo lo',
    bytes_Compare lo' lo = Lt -> keys_above lo l = true -> keys_above lo' l = true.
Proof.
  intros [|i l] lo lo' H K; simpl in *; [reflexivity|].
  destruct (bytes_Compare lo (key i)) eqn:E; try discriminate.
  now rewrite (bytes_Compare_lt_trans _ _ _ H E).
Qed.

(** Below the bound of an ascending sequence there is nothing to find. *)
Lemma lookup_below :
  forall l lo k,
    keys_above lo l = true -> bytes_Compare lo k <> Lt -> lookup k l = None.
Proof.
  induction l as [|i l IH]; intros lo k K H; [reflexivity|].
  simpl in K. destruct (bytes_Compare lo (key i)) eqn:E; try discriminate.
  rewrite lookup_cons.
  destruct (bytes_Equal (key i) k) eqn:Q.
  - apply bytes_Equal_eq in Q. subst k. contradiction.
  - apply (IH (key i)); [assumption|].
    intros L. apply H. eapply bytes_Compare_lt_trans; eassumption.
Qed.

(** In an ascending sequence, seeking and then comparing is the
    exact-match lookup. *)
Lemma seek_then_compare :
  forall l lo k,
    keys_above lo l = true ->
    match seek_elem k l with
    | Some i => if bytes_Equal (key i) k then Some i else None
    | None => None
    end = lookup k l.
Proof.
  induction l as [|i l IH]; intros lo k K; [reflexivity|].
  simpl in K. destruct (bytes_Compare lo (key i)) eqn:E; try discriminate.
  rewrite seek_elem_cons, lookup_cons. unfold bytes_Equal at 2.
  destruct (bytes_Compare (key i) k) eqn:C.
  - unfold bytes_Equal. now rewrite C.
  - now apply (IH (key i)).
  - unfold bytes_Equal. rewrite C. symmetry.
    apply (lookup_below l (key i)); [assumption|]. congruence.
Qed.

Lemma seek_elem_lookup :
  forall l lo k i,
    keys_above lo l = true ->
    lookup k l = Some i -> seek_elem k l = Some i /\ key i = k.
Proof.
  intros l lo k i K H. rewrite <- (seek_then_compare l lo k K) in H.
  destruct (seek_elem k l) as [j|]; [|discriminate].
  destruct (bytes_Equal (key j) k) eqn:Q; [|discriminate].
  inversion H; subst. split; [reflexivity|]. now apply bytes_Equal_eq.
Qed.

Lemma seek_elem_absent :
  forall l lo k,
    keys_above lo l = true ->
    lookup k l = None ->
    match seek_elem k l with
    | Some i => key i <> k
    | None => True
    end.
Proof.
  intros l lo k K H. rewrite <- (seek_then_compare l lo k K) in H.
  destruct (seek_elem k l) as [j|]; [|exact I].
  destruct (bytes_Equal (key j) k) eqn:Q; [discriminate|].
  intros N. rewrite N, bytes_Equal_refl in Q. discriminate.
Qed.

Lemma keys_above_node_put :
  forall l lo k v,
    keys_above lo l = true -> bytes_Compare lo k = Lt ->
    keys_above lo (node_put k v l) = true.
Proof.
  induction l as [|i l IH]; intros lo k v K H.
  - simpl. now rewrite H.
  - simpl in K. destruct (bytes_Compare lo (key i)) eqn:E; try discriminate.
    rewrite node_put_cons.
    destruct (bytes_Compare (key i) k) eqn:C; simpl.
    + apply bytes_Compare_eq in C. subst k. now rewrite H.
    + rewrite E. now apply IH.
    + rewrite H. now rewrite (bytes_Compare_gt_lt _ _ C).
Qed.

Lemma keys_above_node_del :
  forall l lo k,
    keys_above lo l = true -> keys_above lo (node_del k l) = true.
Proof.
  induction l as [|i l IH]; intros lo k K; [reflexivity|].
  pose proof K as K0.
  simpl in K. destruct (bytes_Compare lo (key i)) eqn:E; try discriminate.
  rewrite node_del_cons.
  destruct (bytes_Compare (key i) k) eqn:C.
  - eapply keys_above_weaken; eassumption.
  - simpl. rewrite E. now apply IH.
  - exact K0.
Qed.

Lemma lookup_node_put_same :
  forall l lo k v,
    keys_above lo l = true ->
    lookup k (node_put k v l) = Some (mkInode 0 k v).
Proof.
  induction l as [|i l IH]; intros lo k v K.
  - unfold node_put. simpl. unfold lookup. simpl. now rewrite bytes_Equal_refl.
  - simpl in K. destruct (bytes_Compare lo (key i)) eqn:E; try discriminate.
    rewrite node_put_cons.
    destruct (bytes_Compare (key i) k) eqn:C; rewrite lookup_cons; simpl.
    + now rewrite bytes_Equal_refl.
    + unfold bytes_Equal. rewrite C. now apply (IH (key i)).
    + now rewrite bytes_Equal_refl.
Qed.

Lemma lookup_node_put_other :
  forall l k v k',
    k' <> k -> lookup k' (node_put k v l) = lookup k' l.
Proof.
  induction l as [|i l IH]; intros k v k' N.
  - unfold node_put, lookup. simpl. rewrite bytes_Equal_neq; congruence.
  - rewrite node_put_cons.
    destruct (bytes_Compare (key i) k) eqn:C; rewrite !lookup_cons; simpl.
    + apply bytes_Compare_eq in C. subst k.
      rewrite bytes_Equal_neq by congruence. reflexivity.
    + now rewrite IH.
    + rewrite (bytes_Equal_neq k k') by congruence. reflexivity.
Qed.

Lemma lookup_node_del_same :
  forall l lo k,
    keys_above lo l = true -> lookup k (node_del k l) = None.
Proof.
  induction l as [|i l IH]; intros lo k K; [reflexivity|].
  simpl in K. destruct (bytes_Compare lo (key i)) eqn:E; try discriminate.
  rewrite node_del_cons.
  destruct (bytes_Compare (key i) k) eqn:C.
  - apply bytes_Compare_eq in C. subst k.
    apply (lookup_below l (key i)); [assumption|].
    now rewrite bytes_Compare_refl.
  - rewrite lookup_cons. unfold bytes_Equal. rewrite C. now apply (IH (key i)).
  - rewrite lookup_cons. unfold bytes_Equal. rewrite C.
    apply (lookup_below l (key i)); [assumption|]. congruence.
Qed.

Lemma lookup_node_del_other :
  forall l k k',
    k' <> k -> lookup k' (node_del k l) = lookup k' l.
Proof.
  induction l as [|i l IH]; intros k k' N; [reflexivity|].
  rewrite node_del_cons.
  destruct (bytes_Compare (key i) k) eqn:C; rewrite ?lookup_cons.
  - apply bytes_Compare_eq in C. subst k.
    rewrite bytes_Equal_neq by congruence. reflexivity.
  - now rewrite IH.
  - reflexivity.
Qed.

Lemma filter_below :
  forall l lo k,
    keys_above lo l = true -> bytes_Compare lo k <> Lt ->
    filter (fun i => bytes_Equal (key i) k) l = [].
Proof.
  induction l as [|i l IH]; intros lo k K H; [reflexivity|].
  simpl in K. destruct (bytes_Compare lo (key i)) eqn:E; try discriminate.
  simpl. destruct (bytes_Equal (key i) k) eqn:Q.
  - apply bytes_Equal_eq in Q. subst k. contradiction.
  - apply (IH (key i)); [assumption|].
    intros L. apply H. eapply bytes_Compare_lt_trans; eassumption.
Qed.

(** After a put, an ascending sequence holds its key once. *)
Lemma count_key_node_put :
  forall l lo k v,
    keys_above lo l = true -> count_key k (node_put k v l) = 1%nat.
Proof.
  unfold count_key.
  induction l as [|i l IH]; intros lo k v K.
  - unfold node_put. simpl. now rewrite bytes_Equal_refl.
  - simpl in K. destruct (bytes_Compare lo (key i)) eqn:E; try discriminate.
    rewrite node_put_cons.
    destruct (bytes_Compare (key i) k) eqn:C; simpl.
    + apply bytes_Compare_eq in C. subst k. rewrite bytes_Equal_refl. simpl.
      rewrite (filter_below l (key i)); [reflexivity|assumption|].
      now rewrite bytes_Compare_refl.
    + unfold bytes_Equal at 1. rewrite C. now apply (IH (key i)).
    + rewrite bytes_Equal_refl. unfold bytes_Equal at 1. rewrite C. simpl.
      rewrite (filter_below l (key i)); [reflexivity|assumption|]. congruence.
Qed.

Lemma filter_above :
  forall l lo k,
    keys_above lo l = true -> bytes_Compare lo k <> Lt ->
    filter (fun i => negb (bytes_Equal (key i) k)) l = l.
Proof.
  induction l as [|i l IH]; intros lo k K H; [reflexivity|].
  simpl in K. destruct (bytes_Compare lo (key i)) eqn:E; try discriminate.
  simpl. destruct (bytes_Equal (key i) k) eqn:Q; simpl.
  - apply bytes_Equal_eq in Q. subst k. contradiction.
  - f_equal. apply (IH (key i)); [assumption|].
    intros L. apply H. eapply bytes_Compare_lt_trans; eassumption.
Qed.

(** Removing a key from an ascending sequence leaves every element of
    another key, in place. *)
Lemma node_del_filter :
  forall l lo k,
    keys_above lo l = true ->
    node_del k l = filter (fun i => negb (bytes_Equal (key i) k)) l.
Proof.
  induction l as [|i l IH]; intros lo k K; [reflexivity|].
  simpl in K. destruct (bytes_Compare lo (key i)) eqn:E; try discriminate.
  rewrite node_del_cons. simpl. unfold bytes_Equal at 1.
  destruct (bytes_Compare (key i) k) eqn:C; simpl.
  - apply bytes_Compare_eq in C. subst k. symmetry.
    apply (filter_above l (key i)); [assumption|].
    now rewrite bytes_Compare_refl.
  - f_equal. now apply (IH (key i)).
  - f_equal. symmetry. apply (filter_above l (key i)); [assumption|]. congruence.
Qed.

(* ------------------------------------------------------------------ *)
(** ** The facade, call by call *)

Lemma root_get_set :
  forall name b r, root_get name (root_set name b r) = Some b.
Proof.
  intros name b r. induction r as [|[n b0] r IH]; simpl.
  - now rewrite bytes_Equal_refl.
  - destruct (bytes_Equal n name) eqn:E; simpl; now rewrite E.
Qed.

Lemma is_bucket_plain : forall k v, is_bucket (mkInode 0 k v) = false.
Proof. reflexivity. Qed.

Ltac break_match :=
  match goal with
  | |- context [match ?x with _ => _ end] => destruct x eqn:?
  | H : context [match ?x with _ => _ end] |- _ => destruct x eqn:?
  end.

Ltac split_pairs :=
  repeat match goal with
         | H : (_, _) = (_, _) |- _ => inversion H; subst; clear H
         | H : Some _ = Some _ |- _ => inversion H; subst; clear H
         end.

Lemma DB_Update_opened :
  forall d fn, opened (snd (DB_Update d fn)) = opened d.
Proof.
  intros d fn. unfold DB_Update, Tx_Commit.
  destruct (opened d) eqn:Op; simpl; [|assumption].
  repeat break_match; split_pairs; simpl; assumption.
Qed.

Section FacadeFacts.

Context {V : Type} {codec : Gob V}.

(** What a successful [Put] has done. *)
Lemma Put_OK_inv :
  forall n kvs k value kvs',
    Put n kvs k value = (OK, kvs') ->
    exists v buf l,
      value = Some v /\ gobEncode n v = Encoded buf /\
      opened (db kvs) = true /\
      root_get bucketName (root (db kvs)) = Some l /\
      bytes_of_string k <> [] /\
      opened (db kvs') = true /\
      root (db kvs') =
        root_set bucketName (node_put (bytes_of_string k) buf l) (root (db kvs)).
Proof.
  intros n kvs k value kvs' H. unfold Put in H.
  destruct value as [v|]; [|discriminate].
  destruct (gobEncode n v) as [buf|e|] eqn:En; [|discriminate|discriminate].
  unfold DB_Update in H.
  destruct (opened (db kvs)) eqn:Op; simpl in H; [|discriminate].
  unfold Tx_Bucket in H. simpl in H.
  destruct (root_get bucketName (root (db kvs))) as [l|] eqn:R;
    [|discriminate].
  unfold Bucket_Put, bucket_of, set_bucket in H. simpl in H. rewrite R in H.
  destruct (len (bytes_of_string k) =? 0) eqn:L0; [discriminate|].
  destruct (len (bytes_of_string k) >? MaxKeySize); [discriminate|].
  destruct (len buf >? MaxValueSize); [discriminate|].
  exists v, buf, l. repeat split; try assumption.
  - intros N. rewrite N in L0. discriminate.
  - unfold Tx_Commit in H. simpl in H.
    repeat break_match; try discriminate; split_pairs; simpl; assumption.
  - unfold Tx_Commit in H. simpl in H.
    repeat break_match; try discriminate; split_pairs; reflexivity.
Qed.

(** A [Put] that does not succeed leaves every bucket as it was. *)
Lemma Put_failed :
  forall n kvs k value r kvs',
    Put n kvs k value = (r, kvs') -> r <> OK ->
    root (db kvs') = root (db kvs).
Proof.
  intros n kvs k value r kvs' H N. unfold Put in H.
  destruct value as [v|]; [|now inversion H].
  destruct (gobEncode n v) as [buf|e|]; [|now inversion H|now inversion H].
  unfold DB_Update in H.
  destruct (opened (db kvs)); simpl in H; [|now inversion H].
  unfold Tx_Bucket, Bucket_Put, bucket_of, set_bucket, Tx_Commit in H.
  simpl in H.
  repeat break_match; split_pairs; simpl in *;
    try reflexivity; try congruence.
Qed.

Lemma Put_opened :
  forall n kvs k value,
    opened (db (snd (Put n kvs k value))) = opened (db kvs).
Proof.
  intros n kvs k value. unfold Put.
  destruct value as [v|]; [|reflexivity].
  destruct (gobEncode n v) as [buf|e|]; [|reflexivity|reflexivity].
  match goal with
  | |- context [DB_Update ?d ?fn] =>
      pose proof (DB_Update_opened d fn) as O; destruct (DB_Update d fn)
  end.
  exact O.
Qed.

(** [Get] on an open store whose container is ascending. *)
Lemma Get_wf :
  forall kvs k dst l lo,
    opened (db kvs) = true ->
    root_get bucketName (root (db kvs)) = Some l ->
    keys_above lo l = true ->
    Get kvs k dst =
    (match lookup (bytes_of_string k) l with
     | None => (Err ErrNotFound, dst)
     | Some i =>
         match dst with
         | None => (OK, None)
         | Some d =>
             let (d', e) := gobDecode (if is_bucket i then [] else value i) d in
             (outcome_of e, Some d')
         end
     end,
     mkKVStore (DB_begin false (db kvs))).
Proof.
  intros kvs k dst l lo Op R K. unfold Get, DB_View. rewrite Op. simpl.
  unfold Tx_Bucket. simpl. rewrite R.
  unfold Cursor_Seek, bucket_of. simpl. rewrite R.
  fold (seek_elem (bytes_of_string k) l).
  destruct (lookup (bytes_of_string k) l) as [i|] eqn:L.
  - destruct (seek_elem_lookup l lo _ i K L) as [S E]. rewrite S.
    assert (O : other_key (Some (key i)) k = false)
      by (apply other_key_false; now rewrite E).
    destruct (is_bucket i); rewrite O; destruct dst as [d|]; reflexivity.
  - pose proof (seek_elem_absent l lo _ K L) as A.
    destruct (seek_elem (bytes_of_string k) l) as [j|]; [|reflexivity].
    assert (O : other_key (Some (key j)) k = true).
    { destruct (other_key (Some (key j)) k) eqn:O; [reflexivity|].
      apply other_key_false in O. inversion O. contradiction. }
    destruct (is_bucket j); now rewrite O.
Qed.

Lemma Get_root :
  forall kvs k dst, root (db (snd (Get kvs k dst))) = root (db kvs).
Proof.
  intros kvs k dst. unfold Get, DB_View.
  destruct (opened (db kvs)); reflexivity.
Qed.

Lemma Get_opened :
  forall kvs k dst, opened (db (snd (Get kvs k dst))) = opened (db kvs).
Proof.
  intros kvs k dst. unfold Get, DB_View.
  destruct (opened (db kvs)) eqn:Op; simpl; assumption.
Qed.

(** [Delete] on an open store whose container is ascending. *)
Lemma Delete_wf :
  forall kvs k l lo,
    opened (db kvs) = true ->
    root_get bucketName (root (db kvs)) = Some l ->
    keys_above lo l = true ->
    Delete kvs k =
    match lookup (bytes_of_string k) l with
    | None => (Err ErrNotFound, mkKVStore (DB_begin true (db kvs)))
    | Some i =>
        if is_bucket i
        then (Err ErrIncompatibleValue, mkKVStore (DB_begin true (db kvs)))
        else
          let (r, d) :=
            Tx_Commit (DB_begin true (db kvs))
              (mkTx true
                 (root_set bucketName (node_del (bytes_of_string k) l)
                    (root (db kvs)))) in
          (r, mkKVStore d)
    end.
Proof.
  intros kvs k l lo Op R K. unfold Delete, DB_Update. rewrite Op. simpl.
  unfold Tx_Bucket. simpl. rewrite R.
  unfold Cursor_Seek, bucket_of. simpl. rewrite R.
  fold (seek_elem (bytes_of_string k) l).
  destruct (lookup (bytes_of_string k) l) as [i|] eqn:L.
  - destruct (seek_elem_lookup l lo _ i K L) as [S E]. rewrite S.
    assert (O : other_key (Some (key i)) k = false)
      by (apply other_key_false; now rewrite E).
    destruct (is_bucket i) eqn:B; rewrite O;
      unfold Cursor_Delete, bucket_of, set_bucket; simpl; rewrite R;
      unfold seek_elem in S; rewrite S, B; [reflexivity|].
    rewrite E. reflexivity.
  - pose proof (seek_elem_absent l lo _ K L) as A.
    destruct (seek_elem (bytes_of_string k) l) as [j|]; [|reflexivity].
    assert (O : other_key (Some (key j)) k = true).
    { destruct (other_key (Some (key j)) k) eqn:O; [reflexivity|].
      apply other_key_false in O. inversion O. contradiction. }
    destruct (is_bucket j); now rewrite O.
Qed.

Lemma Close_root :
  forall kvs, root (db (snd (Close kvs))) = root (db kvs).
Proof.
  intros kvs. unfold Close, DB_Close.
  destruct (opened (db kvs)); [destruct (closing (db kvs))|]; reflexivity.
Qed.

End FacadeFacts.

(* ------------------------------------------------------------------ *)
(** ** Stores along a history of calls *)

Lemma wf_bucket :
  forall kvs,
    wf kvs = true ->
    exists l,
      root_get bucketName (root (db kvs)) = Some l /\ keys_above [] l = true.
Proof.
  intros kvs H. unfold wf in H.
  destruct (root_get bucketName (root (db kvs))) as [l|]; [|discriminate].
  now exists l.
Qed.

Lemma wf_root :
  forall kvs kvs', root (db kvs') = root (db kvs) -> wf kvs' = wf kvs.
Proof. intros kvs kvs' H. unfold wf. now rewrite H. Qed.

Lemma entries_root :
  forall kvs kvs', root (db kvs') = root (db kvs) -> entries kvs' = entries kvs.
Proof. intros kvs kvs' H. unfold entries. now rewrite H. Qed.

Lemma nonempty_above : forall k : bytes, k <> [] -> bytes_Compare [] k = Lt.
Proof. intros [|x k] H; [contradiction|reflexivity]. Qed.

Section HistoryFacts.

Context {V : Type} {codec : Gob V}.

(** What a successful [Delete] has done to an ascending container. *)
Lemma Delete_OK_inv :
  forall kvs k kvs' l lo,
    root_get bucketName (root (db kvs)) = Some l ->
    keys_above lo l = true ->
    Delete kvs k = (OK, kvs') ->
    opened (db kvs) = true /\
    lookup (bytes_of_string k) l <> None /\
    root (db kvs') =
      root_set bucketName (node_del (bytes_of_string k) l) (root (db kvs)).
Proof.
  intros kvs k kvs' l lo R K H.
  destruct (opened (db kvs)) eqn:Op.
  - rewrite (Delete_wf kvs k l lo Op R K) in H.
    destruct (lookup (bytes_of_string k) l) as [i|]; [|discriminate].
    destruct (is_bucket i); [discriminate|].
    unfold Tx_Commit in H. simpl in H.
    repeat split; [congruence|].
    repeat break_match; try discriminate; split_pairs; reflexivity.
  - unfold Delete, DB_Update in H. rewrite Op in H. discriminate.
Qed.

(** A [Delete] that does not succeed leaves every bucket as it was. *)
Lemma Delete_failed :
  forall kvs k r kvs',
    Delete kvs k = (r, kvs') -> r <> OK -> root (db kvs') = root (db kvs).
Proof.
  intros kvs k r kvs' H N. unfold Delete, DB_Update in H.
  destruct (opened (db kvs)); simpl in H; [|now inversion H].
  unfold Tx_Commit in H. simpl in H.
  repeat break_match; split_pairs; simpl in *;
    try reflexivity; try congruence.
Qed.

Lemma Delete_opened :
  forall kvs k, opened (db (snd (Delete kvs k))) = opened (db kvs).
Proof.
  intros kvs k. unfold Delete.
  match goal with
  | |- context [DB_Update ?d ?fn] =>
      pose proof (DB_Update_opened d fn) as O; destruct (DB_Update d fn)
  end.
  exact O.
Qed.

(** Every call keeps the container, and keeps it ascending. *)
Lemma step_wf :
  forall kvs (o : Op), wf kvs = true -> wf (snd (step kvs o)) = true.
Proof.
  intros kvs o W. destruct (wf_bucket kvs W) as (l & R & K).
  destruct o as [n k v|k dst|k|]; simpl.
  - destruct (Put n kvs k v) as [r kvs'] eqn:P. simpl.
    destruct r.
    + destruct (Put_OK_inv _ _ _ _ _ P)
        as (v0 & buf & l0 & _ & _ & _ & R0 & Ne & _ & Rt).
      rewrite R in R0. inversion R0; subst l0.
      unfold wf. rewrite Rt, root_get_set.
      apply keys_above_node_put; [assumption|now apply nonempty_above].
    + rewrite (wf_root kvs); [assumption|].
      eapply Put_failed; [eassumption|discriminate].
    + rewrite (wf_root kvs); [assumption|].
      eapply Put_failed; [eassumption|discriminate].
  - rewrite (wf_root kvs); [assumption|apply Get_root].
  - destruct (Delete kvs k) as [r kvs'] eqn:D. simpl.
    destruct r.
    + destruct (Delete_OK_inv _ _ _ _ _ R K D) as (_ & _ & Rt).
      unfold wf. rewrite Rt, root_get_set.
      now apply keys_above_node_del.
    + rewrite (wf_root kvs); [assumption|].
      eapply Delete_failed; [eassumption|discriminate].
    + rewrite (wf_root kvs); [assumption|].
      eapply Delete_failed; [eassumption|discriminate].
  - rewrite (wf_root kvs); [assumption|apply Close_root].
Qed.

Lemma Put_keeps_wf :
  forall n kvs k v r kvs',
    wf kvs = true -> Put n kvs k v = (r, kvs') -> wf kvs' = true.
Proof.
  intros n kvs k v r kvs' W P. pose proof (step_wf kvs (OpPut n k v) W) as X.
  change (wf (snd (Put n kvs k v)) = true) in X. now rewrite P in X.
Qed.

(** A call that is no mutation of [k] leaves the entry of [k] alone. *)
Lemma step_frame :
  forall kvs (o : Op) r kvs' k,
    wf kvs = true ->
    step kvs o = (r, kvs') ->
    mutation_of k (o, r) = None ->
    lookup (bytes_of_string k) (entries kvs') =
    lookup (bytes_of_string k) (entries kvs).
Proof.
  intros kvs o r kvs' k W S M. destruct (wf_bucket kvs W) as (l & R & K).
  destruct o as [n' k' v|k' dst|k'|]; simpl in S.
  - destruct r.
    + destruct (Put_OK_inv _ _ _ _ _ S)
        as (v0 & buf & l0 & _ & _ & _ & R0 & _ & _ & Rt).
      simpl in M. destruct (String.eqb_spec k' k) as [E|N]; [discriminate|].
      unfold entries. rewrite Rt, root_get_set, R0.
      apply lookup_node_put_other.
      intros Q. apply N. symmetry. now apply bytes_of_string_inj.
    + f_equal. apply entries_root.
      eapply Put_failed; [eassumption|discriminate].
    + f_equal. apply entries_root.
      eapply Put_failed; [eassumption|discriminate].
  - inversion S; subst. f_equal. apply entries_root, Get_root.
  - destruct r.
    + destruct (Delete_OK_inv _ _ _ _ _ R K S) as (_ & _ & Rt).
      simpl in M. destruct (String.eqb_spec k' k) as [E|N]; [discriminate|].
      unfold entries. rewrite Rt, root_get_set, R.
      apply lookup_node_del_other.
      intros Q. apply N. symmetry. now apply bytes_of_string_inj.
    + f_equal. apply entries_root.
      eapply Delete_failed; [eassumption|discriminate].
    + f_equal. apply entries_root.
      eapply Delete_failed; [eassumption|discriminate].
  - f_equal. apply entries_root.
    pose proof (Close_root kvs) as C. now rewrite S in C.
Qed.

(** After a successful [Delete] of [k] there is no entry of [k]. *)
Lemma step_removed :
  forall kvs (o : Op) r kvs' k,
    wf kvs = true ->
    step kvs o = (r, kvs') ->
    mutation_of k (o, r) = Some Removed ->
    lookup (bytes_of_string k) (entries kvs') = None.
Proof.
  intros kvs o r kvs' k W S M. destruct (wf_bucket kvs W) as (l & R & K).
  destruct o as [n' k' v|k' dst|k'|]; destruct r; simpl in M;
    try discriminate.
  - destruct (k' =? k)%string; discriminate.
  - destruct (String.eqb_spec k' k) as [E|N]; [subst k'|discriminate].
    simpl in S. destruct (Delete_OK_inv _ _ _ _ _ R K S) as (_ & _ & Rt).
    unfold entries. rewrite Rt, root_get_set.
    now apply (lookup_node_del_same l []).
Qed.

Lemma run_wf :
  forall ops kvs, wf kvs = true -> wf (snd (run kvs ops)) = true.
Proof.
  induction ops as [|o ops IH]; intros kvs W; [assumption|].
  simpl. pose proof (step_wf kvs o W) as W1.
  destruct (step kvs o) as [r kvs1]. simpl in W1.
  specialize (IH kvs1 W1). destruct (run kvs1 ops) as [h kvs2]. exact IH.
Qed.

(** The entry of [k] at the end of a history, from its last mutation. *)
Lemma run_last_mutation :
  forall ops kvs h kvs' k,
    wf kvs = true ->
    run kvs ops = (h, kvs') ->
    match last_mutation k h with
    | None =>
        lookup (bytes_of_string k) (entries kvs') =
        lookup (bytes_of_string k) (entries kvs)
    | Some Removed => lookup (bytes_of_string k) (entries kvs') = None
    | Some Stored => True
    end.
Proof.
  induction ops as [|o ops IH]; intros kvs h kvs' k W R; simpl in R.
  - inversion R; subst. reflexivity.
  - destruct (step kvs o) as [r kvs1] eqn:S.
    destruct (run kvs1 ops) as [h1 kvs2] eqn:R1.
    inversion R; subst. cbn [last_mutation].
    assert (W1 : wf kvs1 = true)
      by (pose proof (step_wf kvs o W) as X; now rewrite S in X).
    specialize (IH kvs1 h1 kvs' k W1 R1).
    destruct (last_mutation k h1) as [[|]|]; try assumption.
    destruct (mutation_of k (o, r)) as [[|]|] eqn:M; [exact I| |].
    + rewrite IH. exact (step_removed kvs o r kvs1 k W S M).
    + rewrite IH. exact (step_frame kvs o r kvs1 k W S M).
Qed.

End HistoryFacts.

(* ------------------------------------------------------------------ *)
(** ** Opening *)

Lemma flock_50ms :
  forall os f,
    held_past_50ms os f = true ->
    flock os f (50 * Millisecond) = Err ErrTimeout.
Proof.
  intros os f H. unfold held_past_50ms in H. unfold flock.
  set (step := 50 * Millisecond + Z.max 0 (oversleep os)).
  assert (T : (50 * Millisecond >? 0) = true) by reflexivity.
  destruct (busy f) as [|[|n]]; simpl in H; try discriminate.
  - (* one busy attempt, and the sleep overshoots *)
    assert (E : (0 + step >? 50 * Millisecond) = true).
    { apply Z.ltb_lt in H. apply Z.gtb_lt. unfold step. lia. }
    cbn [flock_from negb andb]. rewrite T, E. reflexivity.
  - cbn [flock_from negb andb]. rewrite T. cbn [andb].
    destruct (0 + step >? 50 * Millisecond) eqn:E; [reflexivity|].
    assert (E2 : (0 + step + step >? 50 * Millisecond) = true).
    { apply Z.gtb_lt. unfold step, Millisecond. lia. }
    destruct n; cbn [flock_from negb andb]; rewrite T, E2; reflexivity.
Qed.

Lemma Open_OK_inv :
  forall os path kvs,
    Open os path = (Some kvs, OK) ->
    opened (db kvs) = true /\
    exists l,
      root_get bucketName (root (db kvs)) = Some l /\
      (image_ok (image (file_at os path)) = true -> keys_above [] l = true).
Proof.
  intros os path kvs H. unfold Open, bolt_Open in H.
  destruct (image (file_at os path)) as [| |r|e] eqn:Im; try discriminate;
    destruct (flock os (file_at os path) (Timeout (mkOptions (50 * Millisecond))));
    try discriminate;
    unfold DB_Update, Tx_CreateBucketIfNotExists, Tx_Commit in H;
    cbn [opened negb root writable tx_root DB_begin commits begun] in H.
  - change (len bucketName =? 0) with false in H. cbn [root_get] in H.
    destruct (file_commits (file_at os path)) as [|[e|] rest];
      try discriminate;
      inversion H; subst; simpl; (split; [reflexivity|]);
      exists []; split; reflexivity.
  - change (len bucketName =? 0) with false in H.
    destruct (root_get bucketName r) as [l|] eqn:R;
      destruct (file_commits (file_at os path)) as [|[e|] rest];
      try discriminate; inversion H; subst; cbn [db opened root];
      (split; [reflexivity|]).
    + exists l. split; [assumption|]. simpl. now rewrite R.
    + exists l. split; [assumption|]. simpl. now rewrite R.
    + exists []. split; [apply root_get_set|reflexivity].
    + exists []. split; [apply root_get_set|reflexivity].
Qed.

Lemma Open_wf :
  forall os path kvs,
    image_ok (image (file_at os path)) = true ->
    Open os path = (Some kvs, OK) ->
    wf kvs = true.
Proof.
  intros os path kvs I H.
  destruct (Open_OK_inv os path kvs H) as (_ & l & R & K).
  unfold wf. rewrite R. now apply K.
Qed.

Lemma reachable_wf :
  forall {V : Type} {codec : Gob V} kvs,
    reachable (V := V) kvs -> wf kvs = true.
Proof.
  intros V codec kvs R. induction R as [os path kvs I H|kvs o R IH].
  - eapply Open_wf; eassumption.
  - now apply step_wf.
Qed.

(* ------------------------------------------------------------------ *)
(** ** The properties of the specification *)

Section Properties.

Context {V : Type} {codec : Gob V}.

(** Once [Put] has succeeded, [Get] hands the codec the very bytes that
    [Put] got from it. *)
Lemma Get_after_Put :
  forall n kvs k v kvs',
    Put n kvs k (Some v) = (OK, kvs') ->
    exists buf,
      gobEncode n v = Encoded buf /\
      forall dst,
        fst (Get kvs' k (Some dst)) =
        (outcome_of (snd (gobDecode buf dst)), Some (fst (gobDecode buf dst))).
Proof.
  intros n kvs k v kvs' P.
  destruct (Put_OK_inv _ _ _ _ _ P)
    as (v0 & buf & l & Ev & En & _ & _ & _ & Op & Rt).
  inversion Ev; subst v0. exists buf. split; [assumption|]. intros dst.
  unfold Get, DB_View. rewrite Op. simpl.
  unfold Tx_Bucket. simpl. rewrite Rt, root_get_set.
  unfold Cursor_Seek, bucket_of. simpl. rewrite root_get_set.
  fold (seek_elem (bytes_of_string k) (node_put (bytes_of_string k) buf l)).
  rewrite seek_elem_node_put, is_bucket_plain.
  assert (O : other_key (Some (bytes_of_string k)) k = false)
    by now apply other_key_false.
  simpl key. rewrite O. simpl.
  destruct (gobDecode buf dst) as [d' e]. reflexivity.
Qed.

(** C1.  When [Put(k, v)] with a non-nil [v] has succeeded, [Get(k, dst)]
    gives the outcome and the destination content that the codec gives
    for decoding into [dst] the bytes it encoded [v] to; so with a codec
    that returns [v] from those bytes, [Get] succeeds and [dst] holds
    [v]. *)
Theorem Put_Get_round_trip :
  forall n kvs k v kvs' dst,
    Put n kvs k (Some v) = (OK, kvs') ->
    (exists buf,
        gobEncode n v = Encoded buf /\
        fst (Get kvs' k (Some dst)) =
        (outcome_of (snd (gobDecode buf dst)), Some (fst (gobDecode buf dst)))) /\
    (round_trips v dst -> fst (Get kvs' k (Some dst)) = (OK, Some v)).
Proof.
  intros n kvs k v kvs' dst P.
  destruct (Get_after_Put _ _ _ _ _ P) as (buf & En & G). split.
  - exists buf. split; [assumption|apply G].
  - intros RT. rewrite G, (RT _ buf En). reflexivity.
Qed.

(** C2.  Take a well-formed store and any sequence of calls on it.  If
    the last successful mutation of [k] in it is a [Delete], or if there
    is none and [k] had no entry at the start (as in a new file), then on
    the resulting store, while open, [Get(k, dst)] fails with
    [ErrNotFound] for every destination, nil included, and leaves it
    untouched, and [Delete(k)] fails with [ErrNotFound]. *)
Theorem absent_key_not_found :
  forall kvs0 (ops : list Op) h kvs k,
    wf kvs0 = true ->
    run kvs0 ops = (h, kvs) ->
    opened (db kvs) = true ->
    match last_mutation k h with
    | None => lookup (bytes_of_string k) (entries kvs0) = None
    | Some Removed => True
    | Some Stored => False
    end ->
    (forall dst, fst (Get kvs k dst) = (Err ErrNotFound, dst)) /\
    fst (Delete kvs k) = Err ErrNotFound.
Proof.
  intros kvs0 ops h kvs k W R Op A.
  assert (Wk : wf kvs = true)
    by (pose proof (run_wf ops kvs0 W) as X; now rewrite R in X).
  assert (L : lookup (bytes_of_string k) (entries kvs) = None).
  { pose proof (run_last_mutation ops kvs0 h kvs k W R) as X.
    destruct (last_mutation k h) as [[|]|]; [contradiction|assumption|].
    now rewrite X. }
  destruct (wf_bucket kvs Wk) as (l & Rl & K).
  unfold entries in L. rewrite Rl in L. split.
  - intros dst. rewrite (Get_wf kvs k dst l [] Op Rl K), L. reflexivity.
  - rewrite (Delete_wf kvs k l [] Op Rl K), L. reflexivity.
Qed.

(** C3.  On a well-formed store, when [Put(k, v1)] and then [Put(k, v2)]
    have succeeded, the container holds one entry for [k] after the first
    and still one after the second, and [Get(k, dst)] decodes the bytes
    of [v2]: with a codec that returns [v2] from them, it succeeds and
    [dst] holds [v2]. *)
Theorem overwrite_last_write_wins :
  forall n n2 kvs k v1 v2 kvs1 kvs2,
    wf kvs = true ->
    Put n kvs k (Some v1) = (OK, kvs1) ->
    Put n2 kvs1 k (Some v2) = (OK, kvs2) ->
    count_key (bytes_of_string k) (entries kvs1) = 1%nat /\
    count_key (bytes_of_string k) (entries kvs2) = 1%nat /\
    forall dst,
      (exists buf2,
          gobEncode n2 v2 = Encoded buf2 /\
          fst (Get kvs2 k (Some dst)) =
          (outcome_of (snd (gobDecode buf2 dst)),
           Some (fst (gobDecode buf2 dst)))) /\
      (round_trips v2 dst -> fst (Get kvs2 k (Some dst)) = (OK, Some v2)).
Proof.
  intros n n2 kvs k v1 v2 kvs1 kvs2 W P1 P2.
  destruct (wf_bucket kvs W) as (l & R & K).
  assert (W1 : wf kvs1 = true)
    by (eapply Put_keeps_wf; eassumption).
  destruct (wf_bucket kvs1 W1) as (l1 & R1 & K1).
  destruct (Put_OK_inv _ _ _ _ _ P1)
    as (? & buf1 & l0 & _ & _ & _ & R0 & _ & _ & Rt1).
  destruct (Put_OK_inv _ _ _ _ _ P2)
    as (? & buf2 & l1' & _ & _ & _ & R1' & _ & _ & Rt2).
  rewrite R in R0. inversion R0; subst l0.
  rewrite R1 in R1'. inversion R1'; subst l1'.
  repeat split.
  - unfold entries. rewrite Rt1, root_get_set.
    now apply (count_key_node_put l []).
  - unfold entries. rewrite Rt2, root_get_set.
    now apply (count_key_node_put l1 []).
  - destruct (Get_after_Put _ _ _ _ _ P2) as (buf & En & G).
    exists buf. split; [assumption|apply G].
  - intros RT. destruct (Get_after_Put _ _ _ _ _ P2) as (buf & En & G).
    rewrite G, (RT _ buf En). reflexivity.
Qed.

(** C4.  On a well-formed store, when [Put(k, v)] and then [Delete(k)]
    have succeeded, [Get(k, dst)] fails with [ErrNotFound]; the [Delete]
    has left under every other key what was there, and the container is
    the one before it without the element of [k]. *)
Theorem Delete_removes_only_its_key :
  forall n kvs k v kvs1 kvs2,
    wf kvs = true ->
    Put n kvs k (Some v) = (OK, kvs1) ->
    Delete kvs1 k = (OK, kvs2) ->
    (forall dst, fst (Get kvs2 k dst) = (Err ErrNotFound, dst)) /\
    (forall k',
        k' <> bytes_of_string k ->
        lookup k' (entries kvs2) = lookup k' (entries kvs1)) /\
    entries kvs2 =
      filter (fun i => negb (bytes_Equal (key i) (bytes_of_string k)))
        (entries kvs1).
Proof.
  intros n kvs k v kvs1 kvs2 W P D.
  assert (W1 : wf kvs1 = true)
    by (eapply Put_keeps_wf; eassumption).
  destruct (wf_bucket kvs1 W1) as (l1 & R1 & K1).
  destruct (Delete_OK_inv _ _ _ _ _ R1 K1 D) as (Op1 & _ & Rt).
  assert (Op2 : opened (db kvs2) = true).
  { pose proof (Delete_opened kvs1 k) as X. rewrite D in X. simpl in X.
    congruence. }
  assert (R2 : root_get bucketName (root (db kvs2)) =
               Some (node_del (bytes_of_string k) l1))
    by (rewrite Rt; apply root_get_set).
  assert (K2 : keys_above [] (node_del (bytes_of_string k) l1) = true)
    by now apply keys_above_node_del.
  repeat split.
  - intros dst. rewrite (Get_wf kvs2 k dst _ [] Op2 R2 K2).
    now rewrite (lookup_node_del_same l1 []).
  - intros k' N. unfold entries. rewrite R2, R1.
    now apply lookup_node_del_other.
  - unfold entries. rewrite R2, R1. now apply (node_del_filter l1 []).
Qed.

(** C5.  [Put(k, nil)] returns [ErrBadValue] and the store it was given:
    open or closed, with or without its container, whatever the codec.
    No transaction has been begun, no commit has been asked of the
    engine, and what is stored under [k] is what was. *)
Theorem Put_nil_is_rejected :
  forall n kvs k,
    Put n kvs k None = (Err ErrBadValue, kvs) /\
    begun (db (snd (Put n kvs k None))) = begun (db kvs) /\
    commits (db (snd (Put n kvs k None))) = commits (db kvs) /\
    lookup (bytes_of_string k) (entries (snd (Put n kvs k None))) =
    lookup (bytes_of_string k) (entries kvs).
Proof. intros n kvs k. repeat split. Qed.

End Properties.

(** The key a seek returns passes the test of lines 65 and 81 exactly when
    the exact-match lookup finds the key. *)
Lemma Cursor_Seek_exact :
  forall tx b k lo,
    keys_above lo (bucket_of tx b) = true ->
    other_key (fst (snd (Cursor_Seek tx (Bucket_Cursor b) (bytes_of_string k)))) k =
    match lookup (bytes_of_string k) (bucket_of tx b) with
    | Some _ => false
    | None => true
    end.
Proof.
  intros tx b k lo K. unfold Cursor_Seek. cbn [Bucket_Cursor c_bucket c_index].
  set (l := bucket_of tx b) in *.
  fold (seek_elem (bytes_of_string k) l).
  destruct (lookup (bytes_of_string k) l) as [i|] eqn:L.
  - destruct (seek_elem_lookup l lo _ i K L) as [S E]. rewrite S.
    destruct (is_bucket i); cbn [fst snd]; apply other_key_false;
      now rewrite E.
  - pose proof (seek_elem_absent l lo _ K L) as A.
    destruct (seek_elem (bytes_of_string k) l) as [j|]; [|reflexivity].
    assert (O : other_key (Some (key j)) k = true).
    { destruct (other_key (Some (key j)) k) eqn:O; [reflexivity|].
      apply other_key_false in O. inversion O. contradiction. }
    destruct (is_bucket j); exact O.
Qed.

(** Whatever a call does, the buckets afterwards are those before, or those
    before with the container replaced. *)
Lemma DB_Update_root :
  forall d fn,
    (forall tx r tx',
        fn tx = (r, tx') ->
        tx_root tx' = tx_root tx \/
        exists l, tx_root tx' = root_set bucketName l (tx_root tx)) ->
    root (snd (DB_Update d fn)) = root d \/
    exists l, root (snd (DB_Update d fn)) = root_set bucketName l (root d).
Proof.
  intros d fn F. unfold DB_Update, Tx_Commit.
  destruct (opened d); simpl; [|now left].
  destruct (fn (mkTx true (root d))) as [r tx'] eqn:E.
  specialize (F _ _ _ E). simpl in F.
  destruct r; simpl; try now left.
  destruct (commits d) as [|[msg|] rest]; simpl; try assumption. now left.
Qed.

Lemma has_bucket_root_set :
  forall kvs kvs' l,
    root (db kvs') = root_set bucketName l (root (db kvs)) ->
    has_bucket kvs' = true.
Proof. intros kvs kvs' l H. unfold has_bucket. now rewrite H, root_get_set. Qed.

Lemma has_bucket_root :
  forall kvs kvs',
    root (db kvs') = root (db kvs) -> has_bucket kvs' = has_bucket kvs.
Proof. intros kvs kvs' H. unfold has_bucket. now rewrite H. Qed.

Section Lifetime.

Context {V : Type} {codec : Gob V}.

Lemma Put_root :
  forall n kvs k value,
    root (db (snd (Put n kvs k value))) = root (db kvs) \/
    exists l,
      root (db (snd (Put n kvs k value))) = root_set bucketName l (root (db kvs)).
Proof.
  intros n kvs k value. unfold Put.
  destruct value as [v|]; [|now left].
  destruct (gobEncode n v) as [buf|msg|]; [|now left|now left].
  match goal with
  | |- context [DB_Update ?d ?fn] =>
      assert (X : root (snd (DB_Update d fn)) = root d \/
                  exists l, root (snd (DB_Update d fn)) =
                            root_set bucketName l (root d));
      [apply DB_Update_root|destruct (DB_Update d fn); exact X]
  end.
  intros tx r tx' E. unfold Tx_Bucket, Bucket_Put, set_bucket in E.
  repeat break_match; split_pairs; simpl; try (now left);
    right; eexists; reflexivity.
Qed.

Lemma Delete_root :
  forall kvs k,
    root (db (snd (Delete kvs k))) = root (db kvs) \/
    exists l,
      root (db (snd (Delete kvs k))) = root_set bucketName l (root (db kvs)).
Proof.
  intros kvs k. unfold Delete.
  match goal with
  | |- context [DB_Update ?d ?fn] =>
      assert (X : root (snd (DB_Update d fn)) = root d \/
                  exists l, root (snd (DB_Update d fn)) =
                            root_set bucketName l (root d));
      [apply DB_Update_root|destruct (DB_Update d fn); exact X]
  end.
  intros tx r tx' E.
  unfold Tx_Bucket, Cursor_Seek, Cursor_Delete, set_bucket in E.
  repeat break_match; split_pairs; simpl; try (now left);
    right; eexists; reflexivity.
Qed.

Lemma step_has_bucket :
  forall kvs (o : Op),
    has_bucket kvs = true -> has_bucket (snd (step kvs o)) = true.
Proof.
  intros kvs o H. destruct o as [n k v|k dst|k|]; simpl step; cbn [snd].
  - destruct (Put_root n kvs k v) as [E|[l E]].
    + now rewrite (has_bucket_root kvs).
    + eapply has_bucket_root_set; eassumption.
  - rewrite (has_bucket_root kvs); [assumption|apply Get_root].
  - destruct (Delete_root kvs k) as [E|[l E]].
    + now rewrite (has_bucket_root kvs).
    + eapply has_bucket_root_set; eassumption.
  - rewrite (has_bucket_root kvs); [assumption|apply Close_root].
Qed.

Lemma run_has_bucket :
  forall (ops : list Op) kvs,
    has_bucket kvs = true -> has_bucket (snd (run kvs ops)) = true.
Proof.
  induction ops as [|o ops IH]; intros kvs H; [assumption|].
  simpl. pose proof (step_has_bucket kvs o H) as H1.
  destruct (step kvs o) as [r kvs1]. simpl in H1.
  specialize (IH kvs1 H1). destruct (run kvs1 ops) as [h kvs2]. exact IH.
Qed.

End Lifetime.

(** C6, as stated, fails: [Open] has no timeout among its inputs.  With the
    lock held by another process at the first attempt only, a caller who
    asks for 200ms is served by the operation the specification words, and
    the source's [Open] gives up. *)
Lemma Open_ignores_a_longer_timeout :
  Open os_locked "test.db" = (None, Err ErrTimeout) /\
  Open_with_timeout os_locked "test.db" (200 * Millisecond) =
  (Some store0, OK).
Proof. split; reflexivity. Qed.

(** C6, amended.  [Open] takes the path alone and waits for the file lock
    with a timeout fixed at 50ms: it is the specification's operation at
    that value, and when another process holds the lock throughout that
    window it fails with [ErrTimeout], no store being returned. *)
Theorem Open_waits_50ms_for_the_lock :
  forall os path,
    Open os path = Open_with_timeout os path (50 * Millisecond) /\
    (image (file_at os path) <> NoDirectory ->
     held_past_50ms os (file_at os path) = true ->
     Open os path = (None, Err ErrTimeout)).
Proof.
  intros os path. split; [reflexivity|]. intros N H.
  unfold Open, bolt_Open. cbn [Timeout].
  rewrite (flock_50ms os (file_at os path) H).
  destruct (image (file_at os path)); [contradiction| | |]; reflexivity.
Qed.

Section Lookups.

Context {V : Type} {codec : Gob V}.

(** C7.  On an open, well-formed store, the key returned by seeking the
    cursor to [k] passes the byte comparison exactly when the exact-match
    lookup finds [k] in the container; [Get] returns [ErrNotFound]
    exactly when it does not, and so does [Delete]. *)
Theorem seek_and_compare_is_exact_match :
  forall kvs k,
    opened (db kvs) = true ->
    wf kvs = true ->
    (other_key
       (fst (snd (Cursor_Seek (mkTx false (root (db kvs)))
                    (Bucket_Cursor (mkBucketRef bucketName))
                    (bytes_of_string k)))) k = false <->
     lookup (bytes_of_string k) (entries kvs) <> None) /\
    (forall dst,
        fst (fst (Get kvs k dst)) = Err ErrNotFound <->
        lookup (bytes_of_string k) (entries kvs) = None) /\
    (fst (Delete kvs k) = Err ErrNotFound <->
     lookup (bytes_of_string k) (entries kvs) = None).
Proof.
  intros kvs k Op W. destruct (wf_bucket kvs W) as (l & R & K).
  assert (E : entries kvs = l) by (unfold entries; now rewrite R).
  rewrite E. repeat split.
  - intros H.
    rewrite (Cursor_Seek_exact _ _ k []) in H;
      unfold bucket_of in *; simpl in *; rewrite R in *; [|assumption].
    destruct (lookup (bytes_of_string k) l); [discriminate|discriminate].
  - intros H.
    rewrite (Cursor_Seek_exact _ _ k []);
      unfold bucket_of; simpl; rewrite R; [|assumption].
    destruct (lookup (bytes_of_string k) l); [reflexivity|contradiction].
  - rewrite (Get_wf kvs k dst l [] Op R K).
    destruct (lookup (bytes_of_string k) l) as [i|]; [|reflexivity].
    destruct dst as [d|]; simpl; [|discriminate].
    destruct (gobDecode (if is_bucket i then [] else value i) d) as [d' [m|]];
      discriminate.
  - intros L. rewrite (Get_wf kvs k dst l [] Op R K), L. reflexivity.
  - rewrite (Delete_wf kvs k l [] Op R K).
    destruct (lookup (bytes_of_string k) l) as [i|]; [|reflexivity].
    destruct (is_bucket i); [discriminate|].
    unfold Tx_Commit. simpl.
    destruct (commits (db kvs)) as [|[m|] rest]; discriminate.
  - intros L. rewrite (Delete_wf kvs k l [] Op R K), L. reflexivity.
Qed.

(** C9.  A store that [Open] returns has the container, and has it after
    any sequence of [Put], [Get], [Delete] and [Close]. *)
Theorem container_exists_for_the_lifetime :
  forall os path kvs (ops : list Op),
    Open os path = (Some kvs, OK) ->
    has_bucket kvs = true /\ has_bucket (snd (run kvs ops)) = true.
Proof.
  intros os path kvs ops H.
  assert (B : has_bucket kvs = true).
  { destruct (Open_OK_inv os path kvs H) as (_ & l & R & _).
    unfold has_bucket. now rewrite R. }
  split; [assumption|]. now apply run_has_bucket.
Qed.

(** C10, amended.  On every reachable store, [Put("", v)] with a non-nil
    [v] never succeeds and stores nothing: it panics when the encoder
    panics on [v], fails with the codec's error when [v] cannot be
    encoded, and otherwise fails with an engine error, [ErrKeyRequired]
    on an open store.  So no reachable store has an entry with the empty
    key, and on one that is open [Get("", dst)] and [Delete("")] fail
    with [ErrNotFound]. *)
Theorem empty_key_is_never_stored :
  forall n kvs (v : V),
    reachable (V := V) kvs ->
    (fst (Put n kvs "" (Some v)) =
     match gobEncode n v with
     | EncodePanic => Panic
     | EncodeError msg => Err (ErrGob msg)
     | Encoded _ =>
         if opened (db kvs) then Err ErrKeyRequired
         else Err ErrDatabaseNotOpen
     end /\
     fst (Put n kvs "" (Some v)) <> OK /\
     (forall e,
         fst (Put n kvs "" (Some v)) = Err e ->
         engine_error e = true \/
         exists msg, e = ErrGob msg /\ gobEncode n v = EncodeError msg) /\
     root (db (snd (Put n kvs "" (Some v)))) = root (db kvs)) /\
    lookup (bytes_of_string "") (entries kvs) = None /\
    (opened (db kvs) = true ->
     (forall dst, fst (Get kvs "" dst) = (Err ErrNotFound, dst)) /\
     fst (Delete kvs "") = Err ErrNotFound).
Proof.
  intros n kvs v Re. pose proof (reachable_wf kvs Re) as W.
  destruct (wf_bucket kvs W) as (l & R & K).
  assert (L : lookup (bytes_of_string "") l = None)
    by (apply (lookup_below l []); [assumption|discriminate]).
  assert (P : fst (Put n kvs "" (Some v)) =
              match gobEncode n v with
              | EncodePanic => Panic
              | EncodeError msg => Err (ErrGob msg)
              | Encoded _ =>
                  if opened (db kvs) then Err ErrKeyRequired
                  else Err ErrDatabaseNotOpen
              end).
  { unfold Put. destruct (gobEncode n v) as [buf|msg|]; try reflexivity.
    unfold DB_Update. destruct (opened (db kvs)); [|reflexivity].
    simpl. unfold Tx_Bucket. simpl. rewrite R. reflexivity. }
  assert (N : fst (Put n kvs "" (Some v)) <> OK).
  { rewrite P. destruct (gobEncode n v); try discriminate.
    destruct (opened (db kvs)); discriminate. }
  split; [split; [exact P|split; [exact N|split]]|split; [|intros Op; split]].
  - intros e E. rewrite P in E. destruct (gobEncode n v) as [buf|msg|].
    + destruct (opened (db kvs)); inversion E; now left.
    + inversion E. right. now exists msg.
    + discriminate.
  - destruct (Put n kvs "" (Some v)) as [r kvs'] eqn:Q.
    eapply Put_failed; [eassumption|exact N].
  - unfold entries. now rewrite R.
  - intros dst. rewrite (Get_wf kvs "" dst l [] Op R K), L. reflexivity.
  - rewrite (Delete_wf kvs "" l [] Op R K), L. reflexivity.
Qed.

End Lookups.

(** C8.  On an open, well-formed store, [Get(k, nil)] on a key that has an
    entry succeeds, whatever the stored bytes are; the codec has no part
    in the call, which is the same under any other codec. *)
Theorem Get_nil_is_an_existence_check :
  forall (V : Type) (codec : Gob V) kvs k,
    opened (db kvs) = true ->
    wf kvs = true ->
    lookup (bytes_of_string k) (entries kvs) <> None ->
    fst (Get (codec := codec) kvs k None) = (OK, None) /\
    forall codec' : Gob V,
      Get (codec := codec') kvs k None = Get (codec := codec) kvs k None.
Proof.
  intros V codec kvs k Op W L. destruct (wf_bucket kvs W) as (l & R & K).
  unfold entries in L. rewrite R in L. split.
  - rewrite (Get_wf kvs k None l [] Op R K).
    destruct (lookup (bytes_of_string k) l); [reflexivity|contradiction].
  - intros codec'.
    rewrite (Get_wf (codec := codec') kvs k None l [] Op R K).
    rewrite (Get_wf (codec := codec) kvs k None l [] Op R K). reflexivity.
Qed.

(** C10, as stated, fails: a value that gob cannot encode makes
    [Put("", v)] fail in the codec, before the engine is asked anything. *)
Lemma Put_empty_key_fails_in_the_codec :
  fst (Put 0 store0 "" (Some GoChan)) =
  Err (ErrGob "gob NewTypeObject can't handle type: chan int") /\
  engine_error (ErrGob "gob NewTypeObject can't handle type: chan int") = false.
Proof. split; reflexivity. Qed.

(* ------------------------------------------------------------------ *)
(** ** The properties on concrete stores *)

Lemma Put_Get_round_trip_witness :
  Put 0 store0 "a" (Some (GoString "hello")) = (OK, store_a) /\
  round_trips (GoString "hello") (GoString "") /\
  fst (Get store_a "a" (Some (GoString ""))) = (OK, Some (GoString "hello")).
Proof.
  assert (RT : round_trips (GoString "hello") (GoString ""))
    by (intros order buf E; inversion E; reflexivity).
  assert (P : Put 0 store0 "a" (Some (GoString "hello")) = (OK, store_a))
    by reflexivity.
  split; [exact P|]. split; [exact RT|].
  destruct (Put_Get_round_trip 0 store0 "a" (GoString "hello") store_a
              (GoString "") P) as [_ G].
  exact (G RT).
Defined.

(** The scenario of the specification, section 8. *)
Example scenario :
  Open os_fresh "test.db" = (Some store0, OK) /\
  fst (run store0
         [OpPut 0 "a" (Some (GoString "hello")); OpGet "a" (Some (GoString ""));
          OpPut 0 "a" (Some (GoString "world")); OpGet "a" (Some (GoString ""));
          OpDelete "a"; OpGet "a" None; OpDelete "a"]) =
  [(OpPut 0 "a" (Some (GoString "hello")), OK);
   (OpGet "a" (Some (GoString "")), OK);
   (OpPut 0 "a" (Some (GoString "world")), OK);
   (OpGet "a" (Some (GoString "")), OK);
   (OpDelete "a", OK);
   (OpGet "a" None, Err ErrNotFound);
   (OpDelete "a", Err ErrNotFound)] /\
  fst (Get store_a "a" (Some (GoString ""))) = (OK, Some (GoString "hello")) /\
  fst (Get (snd (Put 0 store_a "a" (Some (GoString "world")))) "a"
         (Some (GoString ""))) = (OK, Some (GoString "world")).
Proof. repeat split. Qed.

Lemma absent_key_not_found_witness :
  let ops := [OpPut 0 "a" (Some (GoString "hello")); OpDelete "a"] in
  wf store0 = true /\
  opened (db (snd (run store0 ops))) = true /\
  last_mutation "a" (fst (run store0 ops)) = Some Removed /\
  (forall dst,
      fst (Get (snd (run store0 ops)) "a" dst) = (Err ErrNotFound, dst)) /\
  fst (Delete (snd (run store0 ops)) "a") = Err ErrNotFound /\
  last_mutation "b" (fst (run store0 ops)) = None /\
  lookup (bytes_of_string "b") (entries store0) = None /\
  fst (Delete (snd (run store0 ops)) "b") = Err ErrNotFound.
Proof.
  intros ops.
  assert (R : run store0 ops = (fst (run store0 ops), snd (run store0 ops)))
    by reflexivity.
  assert (O : opened (db (snd (run store0 ops))) = true) by reflexivity.
  assert (M : last_mutation "a" (fst (run store0 ops)) = Some Removed)
    by reflexivity.
  assert (Mb : last_mutation "b" (fst (run store0 ops)) = None)
    by reflexivity.
  assert (Lb : lookup (bytes_of_string "b") (entries store0) = None)
    by reflexivity.
  assert (A : (forall dst,
                  fst (Get (snd (run store0 ops)) "a" dst) =
                  (Err ErrNotFound, dst)) /\
              fst (Delete (snd (run store0 ops)) "a") = Err ErrNotFound).
  { apply (absent_key_not_found store0 ops (fst (run store0 ops))
             (snd (run store0 ops)) "a" eq_refl R O).
    rewrite M. exact I. }
  assert (B : (forall dst,
                  fst (Get (snd (run store0 ops)) "b" dst) =
                  (Err ErrNotFound, dst)) /\
              fst (Delete (snd (run store0 ops)) "b") = Err ErrNotFound).
  { apply (absent_key_not_found store0 ops (fst (run store0 ops))
             (snd (run store0 ops)) "b" eq_refl R O).
    rewrite Mb. exact Lb. }
  split; [reflexivity|]. split; [exact O|]. split; [exact M|].
  split; [exact (proj1 A)|]. split; [exact (proj2 A)|].
  split; [exact Mb|]. split; [exact Lb|exact (proj2 B)].
Defined.

Lemma overwrite_last_write_wins_witness :
  let kvs2 := snd (Put 0 store_a "a" (Some (GoString "world"))) in
  wf store0 = true /\
  Put 0 store0 "a" (Some (GoString "hello")) = (OK, store_a) /\
  Put 0 store_a "a" (Some (GoString "world")) = (OK, kvs2) /\
  count_key (bytes_of_string "a") (entries store_a) = 1%nat /\
  count_key (bytes_of_string "a") (entries kvs2) = 1%nat /\
  fst (Get kvs2 "a" (Some (GoString ""))) = (OK, Some (GoString "world")).
Proof.
  intros kvs2.
  assert (RT : round_trips (GoString "world") (GoString ""))
    by (intros order buf E; inversion E; reflexivity).
  assert (P1 : Put 0 store0 "a" (Some (GoString "hello")) = (OK, store_a))
    by reflexivity.
  assert (P2 : Put 0 store_a "a" (Some (GoString "world")) = (OK, kvs2))
    by reflexivity.
  destruct (overwrite_last_write_wins 0 0 store0 "a" (GoString "hello")
              (GoString "world") store_a kvs2 eq_refl P1 P2)
    as (C1 & C2 & G).
  split; [reflexivity|]. split; [exact P1|]. split; [exact P2|].
  split; [exact C1|]. split; [exact C2|].
  destruct (G (GoString "")) as [_ G']. exact (G' RT).
Defined.

Lemma Delete_removes_only_its_key_witness :
  let kvs2 := snd (Delete store_a "a") in
  wf store0 = true /\
  Put 0 store0 "a" (Some (GoString "hello")) = (OK, store_a) /\
  Delete store_a "a" = (OK, kvs2) /\
  (forall dst : option GoValue,
      fst (Get kvs2 "a" dst) = (Err ErrNotFound, dst)) /\
  (forall k',
      k' <> bytes_of_string "a" ->
      lookup k' (entries kvs2) = lookup k' (entries store_a)) /\
  entries kvs2 =
    filter (fun i => negb (bytes_Equal (key i) (bytes_of_string "a")))
      (entries store_a).
Proof.
  intros kvs2.
  assert (P : Put 0 store0 "a" (Some (GoString "hello")) = (OK, store_a))
    by reflexivity.
  assert (D : Delete store_a "a" = (OK, kvs2)) by reflexivity.
  split; [reflexivity|]. split; [exact P|]. split; [exact D|].
  exact (Delete_removes_only_its_key 0 store0 "a" (GoString "hello") store_a
           kvs2 eq_refl P D).
Defined.

Lemma Open_waits_50ms_for_the_lock_witness :
  image (file_at os_held "test.db") <> NoDirectory /\
  held_past_50ms os_held (file_at os_held "test.db") = true /\
  Open os_held "test.db" = (None, Err ErrTimeout).
Proof.
  assert (N : image (file_at os_held "test.db") <> NoDirectory)
    by discriminate.
  split; [exact N|]. split; [reflexivity|].
  destruct (Open_waits_50ms_for_the_lock os_held "test.db") as [_ H].
  exact (H N eq_refl).
Defined.

Lemma seek_and_compare_is_exact_match_witness :
  opened (db store_ab) = true /\
  wf store_ab = true /\
  (forall dst : option GoValue,
      fst (fst (Get store_ab "c" dst)) = Err ErrNotFound <->
      lookup (bytes_of_string "c") (entries store_ab) = None) /\
  (fst (Delete store_ab "c") = Err ErrNotFound <->
   lookup (bytes_of_string "c") (entries store_ab) = None).
Proof.
  split; [reflexivity|]. split; [reflexivity|].
  destruct (seek_and_compare_is_exact_match (V := GoValue) store_ab "c"
              eq_refl eq_refl) as (_ & G & D).
  split; assumption.
Defined.

Lemma Get_nil_is_an_existence_check_witness :
  opened (db store_ab) = true /\
  wf store_ab = true /\
  lookup (bytes_of_string "b") (entries store_ab) <> None /\
  snd (gobDecode [xff] (GoString "")) = Some "EOF"%string /\
  fst (Get (V := GoValue) store_ab "b" None) = (OK, None).
Proof.
  assert (L : lookup (bytes_of_string "b") (entries store_ab) <> None)
    by discriminate.
  split; [reflexivity|]. split; [reflexivity|]. split; [exact L|].
  split; [reflexivity|].
  destruct (Get_nil_is_an_existence_check GoValue gob store_ab "b"
              eq_refl eq_refl L) as [G _].
  exact G.
Defined.

Lemma container_exists_for_the_lifetime_witness :
  let ops := [OpPut 0 "a" (Some (GoString "hello")); OpDelete "a"; OpClose] in
  Open os_fresh "test.db" = (Some store0, OK) /\
  has_bucket store0 = true /\
  has_bucket (snd (run store0 ops)) = true.
Proof.
  intros ops.
  assert (O : Open os_fresh "test.db" = (Some store0, OK)) by reflexivity.
  split; [exact O|].
  exact (container_exists_for_the_lifetime os_fresh "test.db" store0 ops O).
Defined.

Lemma empty_key_is_never_stored_witness :
  reachable (V := GoValue) store0 /\
  fst (Put 0 store0 "" (Some (GoInt 3))) = Err ErrKeyRequired /\
  lookup (bytes_of_string "") (entries store0) = None /\
  (forall dst : option GoValue,
      fst (Get store0 "" dst) = (Err ErrNotFound, dst)) /\
  fst (Delete store0 "") = Err ErrNotFound.
Proof.
  assert (Re : reachable (V := GoValue) store0)
    by (apply (reachable_Open os_fresh "test.db" store0); reflexivity).
  destruct (empty_key_is_never_stored 0 store0 (GoInt 3) Re)
    as ((P & _ & _) & L & G).
  destruct (G eq_refl) as [G1 G2].
  split; [exact Re|]. split; [exact P|]. split; [exact L|].
  split; [exact G1|exact G2].
Defined.

(* ------------------------------------------------------------------ *)
(** ** More on the facade: panics, closing, failed calls *)

Lemma Get_depends_on_buckets :
  forall {V : Type} {codec : Gob V} a b k (dst : option V),
    opened (db a) = opened (db b) ->
    root (db a) = root (db b) ->
    fst (Get a k dst) = fst (Get b k dst).
Proof.
  intros V codec a b k dst O R. unfold Get, DB_View. rewrite O.
  destruct (opened (db b)); simpl; [|reflexivity].
  rewrite R. reflexivity.
Qed.

Section Robustness.

Context {V : Type} {codec : Gob V}.



(** What a call returns on a closed store. *)
Lemma step_closed :
  forall kvs (o : Op),
    opened (db kvs) = false ->
    root (db (snd (step kvs o))) = root (db kvs) /\
    opened (db (snd (step kvs o))) = false /\
    fst (step kvs o) =
    match o with
    | OpPut _ _ None => Err ErrBadValue
    | OpPut n _ (Some v) =>
        match gobEncode n v with
        | Encoded _ => Err ErrDatabaseNotOpen
        | EncodeError msg => Err (ErrGob msg)
        | EncodePanic => Panic
        end
    | OpGet _ _ => Err ErrDatabaseNotOpen
    | OpDelete _ => Err ErrDatabaseNotOpen
    | OpClose => OK
    end.
Proof.
  intros kvs o C. destruct o as [n k [v|]|k dst|k|]; simpl.
  - unfold Put, DB_Update. rewrite C.
    destruct (gobEncode n v); simpl; auto.
  - auto.
  - unfold Get, DB_View. rewrite C. simpl. auto.
  - unfold Delete, DB_Update. rewrite C. simpl. auto.
  - unfold Close, DB_Close. rewrite C. simpl. auto.
Qed.

(** X2.  [Close] closes the handle whether or not it reports an error, and
    keeps what is stored.  From then on, over any sequence of calls, the
    store stays closed and its buckets stay as they were: every [Get] and
    [Delete] returns [ErrDatabaseNotOpen], every [Close] returns nil, and
    a [Put] returns [ErrBadValue] for nil, what the encoder makes it
    return when the value cannot be encoded, and [ErrDatabaseNotOpen]
    otherwise. *)
Theorem closed_store_stays_closed :
  forall kvs (ops : list Op),
    opened (db (snd (Close kvs))) = false /\
    root (db (snd (Close kvs))) = root (db kvs) /\
    opened (db (snd (run (snd (Close kvs)) ops))) = false /\
    root (db (snd (run (snd (Close kvs)) ops))) = root (db kvs) /\
    Forall
      (fun e =>
         snd e =
         match fst e with
         | OpPut _ _ None => Err ErrBadValue
         | OpPut n _ (Some v) =>
             match gobEncode n v with
             | Encoded _ => Err ErrDatabaseNotOpen
             | EncodeError msg => Err (ErrGob msg)
             | EncodePanic => Panic
             end
         | OpGet _ _ => Err ErrDatabaseNotOpen
         | OpDelete _ => Err ErrDatabaseNotOpen
         | OpClose => OK
         end)
      (fst (run (snd (Close kvs)) ops)).
Proof.
  intros kvs ops.
  assert (C : opened (db (snd (Close kvs))) = false).
  { unfold Close, DB_Close.
    destruct (opened (db kvs)) eqn:O; [destruct (closing (db kvs))|];
      simpl; auto. }
  split; [exact C|]. split; [apply Close_root|].
  rewrite <- (Close_root kvs). revert C.
  generalize (snd (Close kvs)). clear kvs.
  induction ops as [|o ops IH]; intros kvs C; simpl.
  - repeat split; [assumption|constructor].
  - destruct (step_closed kvs o C) as (R1 & C1 & F1).
    destruct (step kvs o) as [r kvs1]. simpl in R1, C1, F1.
    destruct (IH kvs1 C1) as (C2 & R2 & F2).
    destruct (run kvs1 ops) as [h kvs2]. simpl in *.
    repeat split; [assumption|congruence|].
    constructor; assumption.
Qed.

(** X3.  A call that does not succeed, a failed commit and a panic of the
    encoder included, leaves every bucket as it was; and unless the call
    is [Close], which closes the handle even when it reports an error, it
    leaves the open flag as it was. *)
Theorem failed_call_changes_nothing :
  forall kvs (o : Op) r kvs',
    step kvs o = (r, kvs') ->
    r <> OK ->
    root (db kvs') = root (db kvs) /\
    (o <> OpClose -> opened (db kvs') = opened (db kvs)).
Proof.
  intros kvs o r kvs' S N. destruct o as [n k v|k dst|k|]; simpl in S.
  - split; [eapply Put_failed; eassumption|]. intros _.
    pose proof (Put_opened n kvs k v) as O. now rewrite S in O.
  - inversion S; subst. split; [apply Get_root|]. intros _. apply Get_opened.
  - split; [eapply Delete_failed; eassumption|]. intros _.
    pose proof (Delete_opened kvs k) as O. now rewrite S in O.
  - split; [|congruence].
    pose proof (Close_root kvs) as C. now rewrite S in C.
Qed.

(** X4.  [Get] writes nothing: buckets, open flag and pending commits are
    as before, the one thing it begins is a read-only transaction, and
    asking again gives the same answer. *)
Theorem Get_is_read_only :
  forall kvs k (dst : option V),
    root (db (snd (Get kvs k dst))) = root (db kvs) /\
    opened (db (snd (Get kvs k dst))) = opened (db kvs) /\
    commits (db (snd (Get kvs k dst))) = commits (db kvs) /\
    begun (db (snd (Get kvs k dst))) =
      (if opened (db kvs) then false :: begun (db kvs) else begun (db kvs)) /\
    fst (Get (snd (Get kvs k dst)) k dst) = fst (Get kvs k dst).
Proof.
  intros kvs k dst.
  assert (R : root (db (snd (Get kvs k dst))) = root (db kvs))
    by apply Get_root.
  assert (O : opened (db (snd (Get kvs k dst))) = opened (db kvs))
    by apply Get_opened.
  repeat split; try assumption.
  - unfold Get, DB_View. destruct (opened (db kvs)); reflexivity.
  - unfold Get, DB_View. destruct (opened (db kvs)); reflexivity.
  - now apply Get_depends_on_buckets.
Qed.

End Robustness.

(* ------------------------------------------------------------------ *)
(** ** More on the facade: how calls compose *)

Lemma root_set_set :
  forall name b b' r,
    root_set name b (root_set name b' r) = root_set name b r.
Proof.
  intros name b b' r. induction r as [|[n b0] r IH]; simpl.
  - now rewrite bytes_Equal_refl.
  - destruct (bytes_Equal n name) eqn:E; simpl; rewrite E; [reflexivity|].
    now rewrite IH.
Qed.

Lemma root_get_set_other :
  forall name name' b r,
    name' <> name -> root_get name' (root_set name b r) = root_get name' r.
Proof.
  intros name name' b r N. induction r as [|[n b0] r IH]; simpl.
  - rewrite bytes_Equal_neq; [reflexivity|congruence].
  - destruct (bytes_Equal n name) eqn:E; simpl.
    + apply bytes_Equal_eq in E. subst n.
      rewrite bytes_Equal_neq; [|congruence]. reflexivity.
    + destruct (bytes_Equal n name'); [reflexivity|assumption].
Qed.

Lemma node_put_idem :
  forall l k v, node_put k v (node_put k v l) = node_put k v l.
Proof.
  induction l as [|i l IH]; intros k v.
  - unfold node_put at 2. simpl. rewrite node_put_cons. simpl.
    now rewrite bytes_Compare_refl.
  - rewrite (node_put_cons k v i l).
    destruct (bytes_Compare (key i) k) eqn:C; rewrite node_put_cons; simpl.
    + now rewrite bytes_Compare_refl.
    + now rewrite C, IH.
    + now rewrite bytes_Compare_refl.
Qed.

Lemma bytes_Compare_neq :
  forall a b, a <> b -> bytes_Compare a b <> Eq.
Proof. intros a b N E. apply N. now apply bytes_Compare_eq. Qed.

Lemma bytes_Compare_lt_gt :
  forall a b, bytes_Compare a b = Lt -> bytes_Compare b a = Gt.
Proof. intros a b H. now rewrite bytes_Compare_antisym, H. Qed.

Ltac node_put_cases :=
  repeat progress
    (rewrite ?node_put_cons; simpl key;
     repeat match goal with
            | H : bytes_Compare _ _ = _ |- _ => rewrite H
            end;
     rewrite ?bytes_Compare_refl);
  try reflexivity.

(** Puts under two keys can be done in either order. *)
Lemma node_put_comm :
  forall l k1 v1 k2 v2,
    k1 <> k2 ->
    node_put k1 v1 (node_put k2 v2 l) = node_put k2 v2 (node_put k1 v1 l).
Proof.
  induction l as [|i l IH]; intros k1 v1 k2 v2 N.
  - change (node_put k2 v2 []) with [mkInode 0 k2 v2].
    change (node_put k1 v1 []) with [mkInode 0 k1 v1].
    destruct (bytes_Compare k1 k2) eqn:C.
    + now apply bytes_Compare_neq in C.
    + pose proof (bytes_Compare_lt_gt _ _ C). node_put_cases.
    + pose proof (bytes_Compare_gt_lt _ _ C). node_put_cases.
  - destruct (bytes_Compare (key i) k1) eqn:C1;
      destruct (bytes_Compare (key i) k2) eqn:C2.
    + apply bytes_Compare_eq in C1, C2. congruence.
    + assert (C : bytes_Compare k1 k2 = Lt)
        by (apply bytes_Compare_eq in C1; now rewrite <- C1).
      node_put_cases.
    + assert (C : bytes_Compare k1 k2 = Gt)
        by (apply bytes_Compare_eq in C1; now rewrite <- C1).
      pose proof (bytes_Compare_gt_lt _ _ C). node_put_cases.
    + assert (C : bytes_Compare k2 k1 = Lt)
        by (apply bytes_Compare_eq in C2; now rewrite <- C2).
      node_put_cases.
    + node_put_cases. f_equal. now apply IH.
    + assert (C : bytes_Compare k2 k1 = Lt)
        by (eapply bytes_Compare_lt_trans;
            [apply bytes_Compare_gt_lt|]; eassumption).
      node_put_cases.
    + assert (C : bytes_Compare k2 k1 = Gt)
        by (apply bytes_Compare_eq in C2; now rewrite <- C2).
      pose proof (bytes_Compare_gt_lt _ _ C). node_put_cases.
    + assert (C : bytes_Compare k1 k2 = Lt)
        by (eapply bytes_Compare_lt_trans;
            [apply bytes_Compare_gt_lt|]; eassumption).
      node_put_cases.
    + destruct (bytes_Compare k1 k2) eqn:C.
      * now apply bytes_Compare_neq in C.
      * pose proof (bytes_Compare_lt_gt _ _ C). node_put_cases.
      * pose proof (bytes_Compare_gt_lt _ _ C). node_put_cases.
Qed.

Lemma length_node_put :
  forall l lo k v,
    keys_above lo l = true ->
    List.length (node_put k v l) =
    match lookup k l with
    | Some _ => List.length l
    | None => S (List.length l)
    end.
Proof.
  induction l as [|i l IH]; intros lo k v K; [reflexivity|].
  simpl in K. destruct (bytes_Compare lo (key i)) eqn:E; try discriminate.
  rewrite node_put_cons, lookup_cons. unfold bytes_Equal.
  destruct (bytes_Compare (key i) k) eqn:C; simpl.
  - reflexivity.
  - rewrite (IH (key i)) by assumption.
    destruct (lookup k l); reflexivity.
  - rewrite (lookup_below l (key i)); [reflexivity|assumption|congruence].
Qed.

Lemma length_node_del :
  forall l lo k,
    keys_above lo l = true ->
    lookup k l <> None ->
    S (List.length (node_del k l)) = List.length l.
Proof.
  induction l as [|i l IH]; intros lo k K N; [contradiction|].
  simpl in K. destruct (bytes_Compare lo (key i)) eqn:E; try discriminate.
  rewrite node_del_cons. rewrite lookup_cons in N. unfold bytes_Equal in N.
  destruct (bytes_Compare (key i) k) eqn:C; simpl.
  - reflexivity.
  - f_equal. now apply (IH (key i)).
  - exfalso. apply N.
    apply (lookup_below l (key i)); [assumption|congruence].
Qed.

Section Composition.

Context {V : Type} {codec : Gob V}.

Lemma Delete_keeps_wf :
  forall kvs k r kvs',
    wf kvs = true -> Delete kvs k = (r, kvs') -> wf kvs' = true.
Proof.
  intros kvs k r kvs' W D.
  pose proof (step_wf (V := V) kvs (OpDelete k) W) as X.
  change (wf (snd (Delete kvs k)) = true) in X. now rewrite D in X.
Qed.

(** X5.  On a well-formed store, a [Put] or a [Delete] of one key, whatever
    its outcome, does not change what [Get] gives for another key. *)
Theorem other_keys_are_independent :
  forall n kvs k1 k2 value (dst : option V),
    wf kvs = true ->
    k1 <> k2 ->
    fst (Get (snd (Put n kvs k1 value)) k2 dst) = fst (Get kvs k2 dst) /\
    fst (Get (snd (Delete kvs k1)) k2 dst) = fst (Get kvs k2 dst).
Proof.
  intros n kvs k1 k2 value dst W N.
  assert (G : forall (o : Op),
             mutation_of k2 (o, fst (step kvs o)) = None ->
             opened (db (snd (step kvs o))) = opened (db kvs) ->
             fst (Get (snd (step kvs o)) k2 dst) = fst (Get kvs k2 dst)).
  { intros o M O.
    destruct (step kvs o) as [r kvs'] eqn:S. simpl in M, O |- *.
    assert (W' : wf kvs' = true)
      by (pose proof (step_wf kvs o W) as X; now rewrite S in X).
    pose proof (step_frame kvs o r kvs' k2 W S M) as F.
    destruct (wf_bucket kvs W) as (l & R & K).
    destruct (wf_bucket kvs' W') as (l' & R' & K').
    unfold entries in F. rewrite R, R' in F.
    destruct (opened (db kvs)) eqn:Op.
    - rewrite (Get_wf kvs' k2 dst l' [] O R' K').
      rewrite (Get_wf kvs k2 dst l [] Op R K). simpl. now rewrite F.
    - unfold Get, DB_View. rewrite O, Op. reflexivity. }
  assert (E : (k1 =? k2)%string = false) by now apply String.eqb_neq.
  split.
  - apply (G (OpPut n k1 value)).
    + simpl. destruct (fst (Put n kvs k1 value)); try reflexivity.
      now rewrite E.
    + apply Put_opened.
  - apply (G (OpDelete k1)).
    + simpl. destruct (fst (Delete kvs k1)); try reflexivity.
      now rewrite E.
    + apply Delete_opened.
Qed.

Lemma lookup_after_Put :
  forall n kvs k v kvs',
    wf kvs = true ->
    Put n kvs k (Some v) = (OK, kvs') ->
    exists buf,
      gobEncode n v = Encoded buf /\
      lookup (bytes_of_string k) (entries kvs') =
      Some (mkInode 0 (bytes_of_string k) buf).
Proof.
  intros n kvs k v kvs' W P. destruct (wf_bucket kvs W) as (l & R & K).
  destruct (Put_OK_inv _ _ _ _ _ P)
    as (v0 & buf & l0 & Ev & En & _ & R0 & _ & _ & Rt).
  inversion Ev; subst v0. rewrite R in R0. inversion R0; subst l0.
  exists buf. split; [assumption|].
  unfold entries. rewrite Rt, root_get_set.
  now apply (lookup_node_put_same l []).
Qed.

(** X6.  On a well-formed store, a successful [Put] leaves under
    [[]byte(key)] a plain element whose value is exactly the bytes the
    encoder produced, and the store stays open and well-formed. *)
Theorem Put_stores_the_encoding :
  forall n kvs k v kvs',
    wf kvs = true ->
    Put n kvs k (Some v) = (OK, kvs') ->
    (exists buf,
        gobEncode n v = Encoded buf /\
        lookup (bytes_of_string k) (entries kvs') =
        Some (mkInode 0 (bytes_of_string k) buf)) /\
    opened (db kvs') = true /\
    wf kvs' = true.
Proof.
  intros n kvs k v kvs' W P. split; [now apply (lookup_after_Put n kvs)|].
  split; [|eapply Put_keeps_wf; eassumption].
  now destruct (Put_OK_inv _ _ _ _ _ P) as (? & ? & ? & _ & _ & _ & _ & _ & O & _).
Qed.

(** One call keeps the stored element of [k] in step with the value last
    put under [k]. *)
Lemma step_put_of :
  forall kvs (o : Op) r kvs' k acc,
    wf kvs = true ->
    step kvs o = (r, kvs') ->
    match acc with
    | Some (n, v) =>
        exists buf,
          gobEncode n v = Encoded buf /\
          lookup (bytes_of_string k) (entries kvs) =
          Some (mkInode 0 (bytes_of_string k) buf)
    | None => True
    end ->
    match put_of k (o, r) acc with
    | Some (n, v) =>
        exists buf,
          gobEncode n v = Encoded buf /\
          lookup (bytes_of_string k) (entries kvs') =
          Some (mkInode 0 (bytes_of_string k) buf)
    | None => True
    end.
Proof.
  intros kvs o r kvs' k acc W S A.
  assert (Same : mutation_of k (o, r) = None ->
                 put_of k (o, r) acc = acc ->
                 match put_of k (o, r) acc with
                 | Some (n, v) =>
                     exists buf,
                       gobEncode n v = Encoded buf /\
                       lookup (bytes_of_string k) (entries kvs') =
                       Some (mkInode 0 (bytes_of_string k) buf)
                 | None => True
                 end).
  { intros M E. rewrite E.
    destruct acc as [[n v]|]; [|exact I].
    now rewrite (step_frame kvs o r kvs' k W S M). }
  destruct o as [n' k' value|k' dst|k'|]; try (apply Same; reflexivity).
  - destruct r;
      try (apply Same; [reflexivity|destruct value; reflexivity]).
    simpl in S. destruct (Put_OK_inv _ _ _ _ _ S) as (v & _ & _ & Ev & _).
    subst value.
    destruct (String.eqb_spec k' k) as [E|N].
    + subst k'. simpl. rewrite String.eqb_refl.
      now apply (lookup_after_Put n' kvs k v kvs').
    + apply Same; simpl; apply String.eqb_neq in N; now rewrite N.
  - destruct r; try (apply Same; reflexivity).
    destruct (String.eqb_spec k' k) as [E|N].
    + subst k'. simpl. rewrite String.eqb_refl. exact I.
    + apply Same; simpl; apply String.eqb_neq in N; now rewrite N.
Qed.

Lemma run_last_put :
  forall (ops : list Op) kvs h kvs' k acc,
    wf kvs = true ->
    run kvs ops = (h, kvs') ->
    match acc with
    | Some (n, v) =>
        exists buf,
          gobEncode n v = Encoded buf /\
          lookup (bytes_of_string k) (entries kvs) =
          Some (mkInode 0 (bytes_of_string k) buf)
    | None => True
    end ->
    match fold_left (fun acc e => put_of k e acc) h acc with
    | Some (n, v) =>
        exists buf,
          gobEncode n v = Encoded buf /\
          lookup (bytes_of_string k) (entries kvs') =
          Some (mkInode 0 (bytes_of_string k) buf)
    | None => True
    end.
Proof.
  induction ops as [|o ops IH]; intros kvs h kvs' k acc W R A; simpl in R.
  - inversion R; subst. exact A.
  - destruct (step kvs o) as [r kvs1] eqn:S.
    destruct (run kvs1 ops) as [h1 kvs2] eqn:R1.
    inversion R; subst. cbn [fold_left].
    assert (W1 : wf kvs1 = true)
      by (pose proof (step_wf kvs o W) as X; now rewrite S in X).
    apply (IH kvs1 h1 kvs' k _ W1 R1).
    exact (step_put_of kvs o r kvs1 k acc W S A).
Qed.

(** X7.  Over any sequence of calls on a well-formed store: when the last
    successful mutation of [k] is a [Put] of [v], whatever was done to
    other keys before or since, [Get(k, dst)] on the resulting open store
    decodes the bytes [v] was encoded to in that [Put]; with a codec that
    returns [v] from them it succeeds and [dst] holds [v]. *)
Theorem Get_gives_the_last_Put :
  forall kvs0 (ops : list Op) h kvs k n v dst,
    wf kvs0 = true ->
    run kvs0 ops = (h, kvs) ->
    opened (db kvs) = true ->
    last_put k h = Some (n, v) ->
    (exists buf,
        gobEncode n v = Encoded buf /\
        fst (Get kvs k (Some dst)) =
        (outcome_of (snd (gobDecode buf dst)), Some (fst (gobDecode buf dst)))) /\
    (round_trips v dst -> fst (Get kvs k (Some dst)) = (OK, Some v)).
Proof.
  intros kvs0 ops h kvs k n v dst W R Op L.
  pose proof (run_last_put ops kvs0 h kvs k None W R I) as A.
  fold (last_put k h) in A. rewrite L in A. destruct A as (buf & En & Lk).
  assert (Wk : wf kvs = true)
    by (pose proof (run_wf ops kvs0 W) as X; now rewrite R in X).
  destruct (wf_bucket kvs Wk) as (l & Rl & K).
  unfold entries in Lk. rewrite Rl in Lk.
  assert (G : fst (Get kvs k (Some dst)) =
              (outcome_of (snd (gobDecode buf dst)),
               Some (fst (gobDecode buf dst)))).
  { rewrite (Get_wf kvs k (Some dst) l [] Op Rl K), Lk. simpl.
    destruct (gobDecode buf dst). reflexivity. }
  split.
  - exists buf. split; assumption.
  - intros RT. rewrite G, (RT _ buf En). reflexivity.
Qed.

Lemma Put_value_OK_inv :
  forall n kvs k v kvs',
    Put n kvs k (Some v) = (OK, kvs') ->
    exists buf l,
      gobEncode n v = Encoded buf /\
      root_get bucketName (root (db kvs)) = Some l /\
      root (db kvs') =
        root_set bucketName (node_put (bytes_of_string k) buf l) (root (db kvs)).
Proof.
  intros n kvs k v kvs' P.
  destruct (Put_OK_inv _ _ _ _ _ P)
    as (v0 & buf & l & Ev & En & _ & R & _ & _ & Rt).
  inversion Ev; subst v0. now exists buf, l.
Qed.

(** X8.  Repeating a successful [Put] of the same key and value leaves
    every bucket as the first one left it, provided the value is encoded
    the second time to the bytes it was encoded to the first time (the
    encoder may walk a map in another order). *)
Theorem Put_twice_is_Put_once :
  forall n n2 kvs k v kvs1 kvs2,
    Put n kvs k (Some v) = (OK, kvs1) ->
    Put n2 kvs1 k (Some v) = (OK, kvs2) ->
    gobEncode n2 v = gobEncode n v ->
    root (db kvs2) = root (db kvs1).
Proof.
  intros n n2 kvs k v kvs1 kvs2 P1 P2 Same.
  destruct (Put_value_OK_inv _ _ _ _ _ P1) as (buf1 & l & E1 & R & Rt1).
  destruct (Put_value_OK_inv _ _ _ _ _ P2) as (buf2 & l1 & E2 & R1 & Rt2).
  rewrite Same, E1 in E2. inversion E2; subst buf2.
  rewrite Rt1, root_get_set in R1. inversion R1; subst l1.
  rewrite Rt2, Rt1, root_set_set, node_put_idem. reflexivity.
Qed.

(** X9.  Successful [Put]s under two different keys give the same buckets
    in either order, provided each value is encoded to the same bytes in
    both. *)
Theorem Puts_of_two_keys_commute :
  forall n1 n2 m1 m2 kvs k1 v1 k2 v2 a1 a2 b1 b2,
    k1 <> k2 ->
    Put n1 kvs k1 (Some v1) = (OK, a1) ->
    Put n2 a1 k2 (Some v2) = (OK, a2) ->
    Put m2 kvs k2 (Some v2) = (OK, b1) ->
    Put m1 b1 k1 (Some v1) = (OK, b2) ->
    gobEncode m1 v1 = gobEncode n1 v1 ->
    gobEncode m2 v2 = gobEncode n2 v2 ->
    root (db a2) = root (db b2).
Proof.
  intros n1 n2 m1 m2 kvs k1 v1 k2 v2 a1 a2 b1 b2 N Pa1 Pa2 Pb1 Pb2 S1 S2.
  destruct (Put_value_OK_inv _ _ _ _ _ Pa1) as (x1 & l & E1 & R & Ra1).
  destruct (Put_value_OK_inv _ _ _ _ _ Pa2) as (x2 & la & E2 & Rla & Ra2).
  destruct (Put_value_OK_inv _ _ _ _ _ Pb1) as (y2 & l' & E2' & R' & Rb1).
  destruct (Put_value_OK_inv _ _ _ _ _ Pb2) as (y1 & lb & E1' & Rlb & Rb2).
  rewrite S1, E1 in E1'. inversion E1'; subst y1.
  rewrite S2, E2 in E2'. inversion E2'; subst y2.
  rewrite R in R'. inversion R'; subst l'.
  rewrite Ra1, root_get_set in Rla. inversion Rla; subst la.
  rewrite Rb1, root_get_set in Rlb. inversion Rlb; subst lb.
  rewrite Ra2, Rb2, Ra1, Rb1, !root_set_set. f_equal.
  symmetry. apply node_put_comm.
  intros Q. apply N. now apply bytes_of_string_inj.
Qed.

(** X10.  On a well-formed store, a successful [Put] adds one element when
    the key was absent and none when it was present, and a successful
    [Delete] takes exactly one away. *)
Theorem calls_change_the_size_by_one :
  forall n kvs k,
    wf kvs = true ->
    (forall v kvs',
        Put n kvs k (Some v) = (OK, kvs') ->
        List.length (entries kvs') =
        match lookup (bytes_of_string k) (entries kvs) with
        | Some _ => List.length (entries kvs)
        | None => S (List.length (entries kvs))
        end) /\
    (forall kvs',
        Delete kvs k = (OK, kvs') ->
        S (List.length (entries kvs')) = List.length (entries kvs)).
Proof.
  intros n kvs k W. destruct (wf_bucket kvs W) as (l & R & K).
  assert (E : entries kvs = l) by (unfold entries; now rewrite R).
  rewrite E. split.
  - intros v kvs' P.
    destruct (Put_OK_inv _ _ _ _ _ P)
      as (? & buf & l0 & _ & _ & _ & R0 & _ & _ & Rt).
    rewrite R in R0. inversion R0; subst l0.
    unfold entries. rewrite Rt, root_get_set.
    now apply (length_node_put l []).
  - intros kvs' D.
    destruct (Delete_OK_inv _ _ _ _ _ R K D) as (_ & L & Rt).
    unfold entries. rewrite Rt, root_get_set.
    now apply (length_node_del l []).
Qed.

End Composition.

(* ------------------------------------------------------------------ *)
(** ** More on the facade: what a store holds, and opening *)

Lemma count_key_le_1 :
  forall l lo k, keys_above lo l = true -> (count_key k l <= 1)%nat.
Proof.
  unfold count_key.
  induction l as [|i l IH]; intros lo k K; simpl; [lia|].
  simpl in K. destruct (bytes_Compare lo (key i)) eqn:E; try discriminate.
  destruct (bytes_Equal (key i) k) eqn:Q.
  - apply bytes_Equal_eq in Q. subst k. simpl.
    rewrite (filter_below l (key i)); [simpl; lia|assumption|].
    now rewrite bytes_Compare_refl.
  - now apply (IH (key i)).
Qed.

Lemma Forall_node_put :
  forall (P : inode -> Prop) l k v,
    Forall P l -> P (mkInode 0 k v) -> Forall P (node_put k v l).
Proof.
  intros P l k v F N. induction F as [|i l Pi F IH].
  - unfold node_put. simpl. now constructor.
  - rewrite node_put_cons.
    destruct (bytes_Compare (key i) k); repeat constructor; assumption.
Qed.

Lemma Forall_node_del :
  forall (P : inode -> Prop) l k, Forall P l -> Forall P (node_del k l).
Proof.
  intros P l k F. induction F as [|i l Pi F IH]; [constructor|].
  rewrite node_del_cons.
  destruct (bytes_Compare (key i) k); try constructor; assumption.
Qed.

Lemma flock_from_cases :
  forall n timeout step first elapsed,
    flock_from timeout step n first elapsed = OK \/
    flock_from timeout step n first elapsed = Err ErrTimeout.
Proof.
  induction n as [|n IH]; intros timeout step first elapsed; simpl;
    destruct (negb first && (timeout >? 0) && (elapsed >? timeout));
    auto.
Qed.

Section Contents.

Context {V : Type} {codec : Gob V}.

(** X11.  In every reachable store the container exists, its keys are in
    strictly ascending byte order, none of them empty, and no key occurs
    twice. *)
Theorem reachable_store_has_unique_keys :
  forall kvs,
    reachable (V := V) kvs ->
    has_bucket kvs = true /\
    keys_above [] (entries kvs) = true /\
    forall k, (count_key k (entries kvs) <= 1)%nat.
Proof.
  intros kvs Re. pose proof (reachable_wf kvs Re) as W.
  destruct (wf_bucket kvs W) as (l & R & K).
  unfold has_bucket, entries. rewrite R. repeat split; try assumption.
  intros k. now apply (count_key_le_1 l []).
Qed.

Lemma step_encoded :
  forall kvs (o : Op),
    wf kvs = true ->
    Forall encoded (entries kvs) ->
    Forall encoded (entries (snd (step kvs o))).
Proof.
  intros kvs o W F. destruct (wf_bucket kvs W) as (l & R & K).
  assert (E : entries kvs = l) by (unfold entries; now rewrite R).
  assert (Same : forall kvs',
             root (db kvs') = root (db kvs) -> Forall encoded (entries kvs'))
    by (intros kvs' Q; now rewrite (entries_root kvs)).
  rewrite E in F.
  destruct o as [n k v|k dst|k|]; simpl step; cbn [snd].
  - destruct (Put n kvs k v) as [r kvs'] eqn:P. simpl.
    destruct r;
      try (apply Same; eapply Put_failed; [eassumption|discriminate]).
    destruct (Put_OK_inv _ _ _ _ _ P)
      as (v0 & buf & l0 & _ & En & _ & R0 & _ & _ & Rt).
    rewrite R in R0. inversion R0; subst l0.
    unfold entries. rewrite Rt, root_get_set.
    apply Forall_node_put; [assumption|].
    split; [reflexivity|]. now exists n, v0.
  - apply Same, Get_root.
  - destruct (Delete kvs k) as [r kvs'] eqn:D. simpl.
    destruct r;
      try (apply Same; eapply Delete_failed; [eassumption|discriminate]).
    destruct (Delete_OK_inv _ _ _ _ _ R K D) as (_ & _ & Rt).
    unfold entries. rewrite Rt, root_get_set.
    now apply Forall_node_del.
  - apply Same, Close_root.
Qed.

(** X12.  The facade stores nothing but encodings: if every element of a
    well-formed store is a plain element holding what the codec encodes
    some value to (as in a new file, which holds none), so it is after any
    sequence of calls. *)
Theorem only_encodings_are_stored :
  forall (ops : list Op) kvs,
    wf kvs = true ->
    Forall encoded (entries kvs) ->
    Forall encoded (entries (snd (run kvs ops))).
Proof.
  induction ops as [|o ops IH]; intros kvs W F; [assumption|].
  simpl. pose proof (step_wf kvs o W) as W1.
  pose proof (step_encoded kvs o W F) as F1.
  destruct (step kvs o) as [r kvs1]. simpl in W1, F1.
  specialize (IH kvs1 W1 F1). destruct (run kvs1 ops) as [h kvs2]. exact IH.
Qed.

(** X15.  A [Put] that succeeds has a key of 1 to 32768 bytes and an
    encoding of at most 2^31 - 2 bytes: nothing else is ever stored. *)
Theorem stored_keys_and_values_are_bounded :
  forall n kvs k (v : V) kvs',
    Put n kvs k (Some v) = (OK, kvs') ->
    0 < len (bytes_of_string k) <= MaxKeySize /\
    exists buf, gobEncode n v = Encoded buf /\ len buf <= MaxValueSize.
Proof.
  intros n kvs k v kvs' H. unfold Put in H.
  destruct (gobEncode n v) as [buf|e|] eqn:En; [|discriminate|discriminate].
  unfold DB_Update in H.
  destruct (opened (db kvs)) eqn:Op; simpl in H; [|discriminate].
  unfold Tx_Bucket in H. simpl in H.
  destruct (root_get bucketName (root (db kvs))) as [l|] eqn:R;
    [|discriminate].
  unfold Bucket_Put in H. simpl in H.
  destruct (len (bytes_of_string k) =? 0) eqn:L0; [discriminate|].
  destruct (len (bytes_of_string k) >? MaxKeySize) eqn:L1; [discriminate|].
  destruct (len buf >? MaxValueSize) eqn:L2; [discriminate|].
  apply Z.eqb_neq in L0.
  assert (L1' : len (bytes_of_string k) <= MaxKeySize)
    by (destruct (Z.gtb_spec (len (bytes_of_string k)) MaxKeySize);
        [discriminate|assumption]).
  assert (L2' : len buf <= MaxValueSize)
    by (destruct (Z.gtb_spec (len buf) MaxValueSize);
        [discriminate|assumption]).
  assert (0 <= len (bytes_of_string k)) by (unfold len; lia).
  split; [lia|]. now exists buf.
Qed.

End Contents.

(** X13.  [Open] returns either a store and no error, the store being
    open and having the container, or no store and an error; never both,
    never neither, and it does not panic. *)
Theorem Open_returns_a_store_or_an_error :
  forall os path,
    (exists kvs,
        Open os path = (Some kvs, OK) /\
        opened (db kvs) = true /\ has_bucket kvs = true) \/
    (exists e, Open os path = (None, Err e)).
Proof.
  intros os path.
  assert (Made : forall kvs,
             Open os path = (Some kvs, OK) ->
             exists kvs,
               Open os path = (Some kvs, OK) /\
               opened (db kvs) = true /\ has_bucket kvs = true).
  { intros kvs H. exists kvs. split; [assumption|].
    destruct (Open_OK_inv os path kvs H) as (O & l & R & _).
    split; [assumption|]. unfold has_bucket. now rewrite R. }
  destruct (Open os path) as [[kvs|] r] eqn:H.
  - revert H. unfold Open, bolt_Open.
    destruct (flock_from_cases (busy (file_at os path)) (50 * Millisecond)
                (50 * Millisecond + Z.max 0 (oversleep os)) true 0) as [F|F];
      unfold flock; cbn [Timeout]; rewrite F;
      destruct (image (file_at os path)) as [| |r0|e]; try discriminate;
      unfold DB_Update, Tx_CreateBucketIfNotExists, Tx_Commit;
      cbn [opened negb root writable tx_root DB_begin commits begun];
      change (len bucketName =? 0) with false; cbn [root_get];
      repeat break_match; intros H; split_pairs; try discriminate;
      left; eapply Made; reflexivity.
  - right. revert H. unfold Open, bolt_Open.
    destruct (flock_from_cases (busy (file_at os path)) (50 * Millisecond)
                (50 * Millisecond + Z.max 0 (oversleep os)) true 0) as [F|F];
      unfold flock; cbn [Timeout]; rewrite F;
      destruct (image (file_at os path)) as [| |r0|e];
      unfold DB_Update, Tx_CreateBucketIfNotExists, Tx_Commit;
      cbn [opened negb root writable tx_root DB_begin commits begun];
      change (len bucketName =? 0) with false; cbn [root_get];
      repeat break_match; intros H; split_pairs; try discriminate;
      eexists; reflexivity.
Qed.

(** X14.  [Open] keeps what the file holds: on a new file the store has
    the empty container and nothing else; on an existing database every
    other bucket is as in the file, and the container holds what it held
    in the file, or nothing when the file had none. *)
Theorem Open_keeps_the_file :
  forall os path kvs,
    Open os path = (Some kvs, OK) ->
    match image (file_at os path) with
    | NoFile => root (db kvs) = [(bucketName, [])]
    | BoltFile r =>
        (forall name,
            name <> bucketName ->
            root_get name (root (db kvs)) = root_get name r) /\
        entries kvs =
          match root_get bucketName r with
          | Some l => l
          | None => []
          end
    | _ => False
    end.
Proof.
  intros os path kvs H. unfold Open, bolt_Open in H.
  destruct (image (file_at os path)) as [| |r|e] eqn:Im; try discriminate;
    destruct (flock os (file_at os path) (Timeout (mkOptions (50 * Millisecond))));
    try discriminate;
    unfold DB_Update, Tx_CreateBucketIfNotExists, Tx_Commit in H;
    cbn [opened negb root writable tx_root DB_begin commits begun] in H;
    change (len bucketName =? 0) with false in H.
  - cbn [root_get] in H.
    destruct (file_commits (file_at os path)) as [|[e|] rest];
      try discriminate; inversion H; subst; reflexivity.
  - unfold entries.
    destruct (root_get bucketName r) as [l|] eqn:R;
      destruct (file_commits (file_at os path)) as [|[e|] rest];
      try discriminate; inversion H; subst; cbn [db root tx_root];
      rewrite ?root_get_set, ?R; (split; [|reflexivity]);
      intros name N; try reflexivity; now apply root_get_set_other.
Qed.

(* ------------------------------------------------------------------ *)
(** ** The further properties on concrete stores *)


Lemma closed_store_stays_closed_witness :
  let ops := [OpGet "a" (Some (GoString "")); OpPut 0 "a" (Some (GoInt 1));
              OpClose; OpDelete "a"] in
  Close store_full = (Err (ErrIO "input/output error"), snd (Close store_full)) /\
  opened (db (snd (Close store_full))) = false /\
  root (db (snd (run (snd (Close store_full)) ops))) = root (db store_full) /\
  map snd (fst (run (snd (Close store_full)) ops)) =
    [Err ErrDatabaseNotOpen; Err ErrDatabaseNotOpen; OK;
     Err ErrDatabaseNotOpen].
Proof.
  intros ops.
  destruct (closed_store_stays_closed (V := GoValue) store_full ops)
    as (C & _ & _ & R & _).
  split; [reflexivity|]. split; [exact C|]. split; [exact R|reflexivity].
Defined.

Lemma failed_call_changes_nothing_witness :
  let o := OpPut 0 "a" (Some (GoInt 1)) in
  step store_full o =
    (Err (ErrIO "no space left on device"), snd (step store_full o)) /\
  Err (ErrIO "no space left on device") <> OK /\
  o <> OpClose /\
  root (db (snd (step store_full o))) = root (db store_full) /\
  opened (db (snd (step store_full o))) = opened (db store_full) /\
  step (V := GoValue) store_full OpClose =
    (Err (ErrIO "input/output error"), snd (Close store_full)) /\
  root (db (snd (Close store_full))) = root (db store_full).
Proof.
  intros o.
  assert (S : step store_full o =
              (Err (ErrIO "no space left on device"), snd (step store_full o)))
    by reflexivity.
  assert (N : Err (ErrIO "no space left on device") <> OK) by discriminate.
  assert (NC : o <> OpClose) by discriminate.
  assert (SC : step (V := GoValue) store_full OpClose =
               (Err (ErrIO "input/output error"), snd (Close store_full)))
    by reflexivity.
  assert (NCl : Err (ErrIO "input/output error") <> OK) by discriminate.
  destruct (failed_call_changes_nothing store_full o _ _ S N) as [R O].
  destruct (failed_call_changes_nothing store_full OpClose _ _ SC NCl)
    as [RC _].
  split; [exact S|]. split; [exact N|]. split; [exact NC|].
  split; [exact R|]. split; [exact (O NC)|]. split; [exact SC|exact RC].
Defined.

Lemma other_keys_are_independent_witness :
  wf store_ab = true /\
  "a"%string <> "b"%string /\
  fst (Get (snd (Put 0 store_ab "a" (Some (GoInt 1)))) "b" None) =
  fst (Get (V := GoValue) store_ab "b" None) /\
  fst (Get (V := GoValue) (snd (Delete store_ab "a")) "b" None) =
  fst (Get (V := GoValue) store_ab "b" None).
Proof.
  assert (N : "a"%string <> "b"%string) by discriminate.
  split; [reflexivity|]. split; [exact N|].
  exact (other_keys_are_independent 0 store_ab "a" "b" (Some (GoInt 1)) None
           eq_refl N).
Defined.

Lemma Put_stores_the_encoding_witness :
  wf store0 = true /\
  Put 0 store0 "a" (Some (GoString "hello")) = (OK, store_a) /\
  (exists buf,
      gobEncode 0 (GoString "hello") = Encoded buf /\
      lookup (bytes_of_string "a") (entries store_a) =
      Some (mkInode 0 (bytes_of_string "a") buf)) /\
  opened (db store_a) = true /\
  wf store_a = true.
Proof.
  assert (P : Put 0 store0 "a" (Some (GoString "hello")) = (OK, store_a))
    by reflexivity.
  split; [reflexivity|]. split; [exact P|].
  exact (Put_stores_the_encoding 0 store0 "a" (GoString "hello") store_a
           eq_refl P).
Defined.

Lemma Get_gives_the_last_Put_witness :
  let ops := [OpPut 0 "a" (Some (GoString "hello"));
              OpPut 1 "b" (Some (GoInt 1));
              OpPut 2 "a" (Some (GoString "world")); OpDelete "b";
              OpGet "b" None] in
  wf store0 = true /\
  opened (db (snd (run store0 ops))) = true /\
  last_put "a" (fst (run store0 ops)) = Some (2%nat, GoString "world") /\
  round_trips (GoString "world") (GoString "") /\
  fst (Get (snd (run store0 ops)) "a" (Some (GoString ""))) =
  (OK, Some (GoString "world")).
Proof.
  intros ops.
  assert (R : run store0 ops = (fst (run store0 ops), snd (run store0 ops)))
    by reflexivity.
  assert (O : opened (db (snd (run store0 ops))) = true) by reflexivity.
  assert (L : last_put "a" (fst (run store0 ops)) =
              Some (2%nat, GoString "world"))
    by reflexivity.
  assert (RT : round_trips (GoString "world") (GoString ""))
    by (intros order buf E; inversion E; reflexivity).
  destruct (Get_gives_the_last_Put store0 ops _ _ "a" 2%nat
              (GoString "world") (GoString "") eq_refl R O L) as [_ G].
  split; [reflexivity|]. split; [exact O|]. split; [exact L|].
  split; [exact RT|exact (G RT)].
Defined.

Lemma Put_twice_is_Put_once_witness :
  let kvs2 := snd (Put 5 store_a "a" (Some (GoString "hello"))) in
  Put 0 store0 "a" (Some (GoString "hello")) = (OK, store_a) /\
  Put 5 store_a "a" (Some (GoString "hello")) = (OK, kvs2) /\
  gobEncode 5 (GoString "hello") = gobEncode 0 (GoString "hello") /\
  root (db kvs2) = root (db store_a).
Proof.
  intros kvs2.
  assert (P1 : Put 0 store0 "a" (Some (GoString "hello")) = (OK, store_a))
    by reflexivity.
  assert (P2 : Put 5 store_a "a" (Some (GoString "hello")) = (OK, kvs2))
    by reflexivity.
  assert (E : gobEncode 5 (GoString "hello") = gobEncode 0 (GoString "hello"))
    by reflexivity.
  split; [exact P1|]. split; [exact P2|]. split; [exact E|].
  exact (Put_twice_is_Put_once 0 5 store0 "a" (GoString "hello") store_a kvs2
           P1 P2 E).
Defined.

Lemma Puts_of_two_keys_commute_witness :
  let b1 := snd (Put 0 store0 "b" (Some (GoInt 1))) in
  let a2 := snd (Put 0 store_a "b" (Some (GoInt 1))) in
  let b2 := snd (Put 0 b1 "a" (Some (GoString "hello"))) in
  "a"%string <> "b"%string /\
  Put 0 store0 "a" (Some (GoString "hello")) = (OK, store_a) /\
  Put 0 store_a "b" (Some (GoInt 1)) = (OK, a2) /\
  Put 0 store0 "b" (Some (GoInt 1)) = (OK, b1) /\
  Put 0 b1 "a" (Some (GoString "hello")) = (OK, b2) /\
  root (db a2) = root (db b2).
Proof.
  intros b1 a2 b2.
  assert (N : "a"%string <> "b"%string) by discriminate.
  assert (Pa1 : Put 0 store0 "a" (Some (GoString "hello")) = (OK, store_a))
    by reflexivity.
  assert (Pa2 : Put 0 store_a "b" (Some (GoInt 1)) = (OK, a2)) by reflexivity.
  assert (Pb1 : Put 0 store0 "b" (Some (GoInt 1)) = (OK, b1)) by reflexivity.
  assert (Pb2 : Put 0 b1 "a" (Some (GoString "hello")) = (OK, b2))
    by reflexivity.
  split; [exact N|]. split; [exact Pa1|]. split; [exact Pa2|].
  split; [exact Pb1|]. split; [exact Pb2|].
  exact (Puts_of_two_keys_commute 0 0 0 0 store0 "a" (GoString "hello") "b"
           (GoInt 1) store_a a2 b1 b2 N Pa1 Pa2 Pb1 Pb2 eq_refl eq_refl).
Defined.

Lemma calls_change_the_size_by_one_witness :
  let put_c := snd (Put 0 store_ab "c" (Some (GoInt 1))) in
  let del_a := snd (Delete store_ab "a") in
  wf store_ab = true /\
  Put 0 store_ab "c" (Some (GoInt 1)) = (OK, put_c) /\
  Delete store_ab "a" = (OK, del_a) /\
  List.length (entries put_c) = 3%nat /\
  S (List.length (entries del_a)) = 2%nat.
Proof.
  intros put_c del_a.
  assert (P : Put 0 store_ab "c" (Some (GoInt 1)) = (OK, put_c)) by reflexivity.
  assert (D : Delete store_ab "a" = (OK, del_a)) by reflexivity.
  destruct (calls_change_the_size_by_one (V := GoValue) 0 store_ab "c" eq_refl)
    as [SP _].
  destruct (calls_change_the_size_by_one (V := GoValue) 0 store_ab "a" eq_refl)
    as [_ SD].
  split; [reflexivity|]. split; [exact P|]. split; [exact D|].
  split; [exact (SP (GoInt 1) put_c P)|exact (SD del_a D)].
Defined.

Lemma reachable_store_has_unique_keys_witness :
  reachable (V := GoValue) store_a /\
  has_bucket store_a = true /\
  keys_above [] (entries store_a) = true /\
  forall k, (count_key k (entries store_a) <= 1)%nat.
Proof.
  assert (R0 : reachable (V := GoValue) store0)
    by (apply (reachable_Open os_fresh "test.db" store0); reflexivity).
  assert (Re : reachable (V := GoValue) store_a)
    by exact (reachable_step store0 (OpPut 0 "a" (Some (GoString "hello"))) R0).
  split; [exact Re|].
  exact (reachable_store_has_unique_keys store_a Re).
Defined.

Lemma only_encodings_are_stored_witness :
  let ops := [OpPut 0 "a" (Some (GoString "hello"));
              OpPut 0 "b" (Some (GoInt 1)); OpDelete "a"] in
  wf store0 = true /\
  Forall (encoded (V := GoValue)) (entries store0) /\
  Forall (encoded (V := GoValue)) (entries (snd (run store0 ops))).
Proof.
  intros ops.
  assert (F : Forall (encoded (V := GoValue)) (entries store0))
    by constructor.
  split; [reflexivity|]. split; [exact F|].
  exact (only_encodings_are_stored ops store0 eq_refl F).
Defined.

Lemma stored_keys_and_values_are_bounded_witness :
  Put 0 store0 "a" (Some (GoString "hello")) = (OK, store_a) /\
  0 < len (bytes_of_string "a") <= MaxKeySize /\
  exists buf,
    gobEncode 0 (GoString "hello") = Encoded buf /\ len buf <= MaxValueSize.
Proof.
  assert (P : Put 0 store0 "a" (Some (GoString "hello")) = (OK, store_a))
    by reflexivity.
  split; [exact P|].
  exact (stored_keys_and_values_are_bounded 0 store0 "a" (GoString "hello")
           store_a P).
Defined.

Lemma Open_keeps_the_file_witness :
  let os :=
    mkOS (fun _ => mkFileState (BoltFile (root (db store_ab))) 0 [] None) 0 in
  let kvs := mkKVStore (mkDB true (root (db store_ab)) [] [true] None) in
  Open os "test.db" = (Some kvs, OK) /\
  entries kvs = entries store_ab.
Proof.
  intros os kvs.
  assert (O : Open os "test.db" = (Some kvs, OK)) by reflexivity.
  split; [exact O|].
  exact (proj2 (Open_keeps_the_file os "test.db" _ O)).
Defined.
